(** * Simon game on a Raspberry Pi: the game worker, the input worker and the
      supervisor, embedded from the Python sources and verified.

    Sources embedded here:
    - [processes/game_controller.py]: [GameLogic], [GameControllerProcess];
    - [processes/input_handler.py]: [ButtonMonitor], [InputHandlerProcess];
    - [processes/game_controller.py]: also [LEDController];
    - [processes/web_server.py]: the two routes that publish button presses
      and the state worker;
    - [main.py]: [SimonGameSystem.monitor_processes].

    Conventions.  Python integers are [Z]; lists are [list]; the dictionaries
    keyed by button index are [gmap Z _]; a call that can raise returns an
    [outcome]; the objects shared between the processes (queues, counters,
    events) are the fields of [Shared], passed explicitly.  Python floats are
    binary64 values, here [PrimFloat.float] with its IEEE 754 subtraction and
    comparison: the clock readings of [time.time()] are seconds as floats and
    [debounce_delay] is the float that Python reads from [0.2], written in
    hexadecimal where the decimal form is not exact.  Sleeps only pace the
    loops and are left out. *)

From Stdlib Require Import Floats.PrimFloat.
From stdpp Require Import base list gmap strings.
From Stdlib Require Import ZArith Lia.

(** ** Exceptions and results *)

Inductive exception := IndexError | KeyError | Full | Empty.

Inductive outcome (A : Type) :=
| Return (v : A)
| Raise (e : exception).
Arguments Return {A} v.
Arguments Raise {A} e.

(** [random.randint(a, b)] draws an integer of the closed range [a..b].  The
    generator is replaced by the raw draw [entropy], an arbitrary integer that
    the caller supplies, reduced into the range. *)
Definition randint (a b : Z) (entropy : Z) : Z :=
  (a + entropy `mod` (b - a + 1))%Z.

(** ** [GameLogic] (game_controller.py, lines 84-135) *)

(** The five string literals ever stored in [GameLogic.state]. *)
Inductive Phase := WAITING | SHOWING | PLAYING | WIN | LOSE.

#[global] Instance Phase_eq_dec : EqDecision Phase.
Proof. solve_decision. Defined.

(** The three string literals returned by [check_input]. *)
Inductive CheckResult := GAME_OVER | WIN_LEVEL | CORRECT.

#[global] Instance CheckResult_eq_dec : EqDecision CheckResult.
Proof. solve_decision. Defined.

Record GameLogic := mkGameLogic {
  sequence : list Z;
  player_input : list Z;
  level : Z;
  state : Phase
}.

(** [GameLogic.__init__] *)
Definition GameLogic_init : GameLogic :=
  {| sequence := []; player_input := []; level := 0; state := WAITING |}.

(** [add_to_sequence]: one draw, appended; [level += 1]. *)
Definition add_to_sequence (entropy : Z) (g : GameLogic) : GameLogic :=
  let new_led := randint 0 2 entropy in
  {| sequence := sequence g ++ [new_led];
     player_input := player_input g;
     level := (level g + 1)%Z;
     state := state g |}.

(** [start_new_game] *)
Definition start_new_game (entropy : Z) (g : GameLogic) : GameLogic :=
  add_to_sequence entropy
    {| sequence := []; player_input := []; level := 0; state := SHOWING |}.

(** [check_input].  The append happens first and survives an [IndexError]
    raised by [self.sequence[current_pos]]. *)
Definition check_input (button_index : Z) (g : GameLogic)
  : GameLogic * outcome CheckResult :=
  let player_input' := player_input g ++ [button_index] in
  let current_pos := (length player_input' - 1)%nat in
  match player_input' !! current_pos, sequence g !! current_pos with
  | Some x, Some y =>
      if negb (x =? y)%Z then
        ({| sequence := sequence g; player_input := player_input';
            level := level g; state := LOSE |}, Return GAME_OVER)
      else if (length player_input' =? length (sequence g))%nat then
        ({| sequence := sequence g; player_input := [];
            level := level g; state := WIN |}, Return WIN_LEVEL)
      else
        ({| sequence := sequence g; player_input := player_input';
            level := level g; state := state g |}, Return CORRECT)
  | _, _ =>
      ({| sequence := sequence g; player_input := player_input';
          level := level g; state := state g |}, Raise IndexError)
  end.

(** [next_level] *)
Definition next_level (entropy : Z) (g : GameLogic) : GameLogic :=
  let g1 := add_to_sequence entropy g in
  {| sequence := sequence g1; player_input := [];
     level := level g1; state := SHOWING |}.

(** [reset] *)
Definition reset (g : GameLogic) : GameLogic :=
  {| sequence := []; player_input := []; level := 0; state := WAITING |}.

(** ** Objects shared between the processes (main.py, lines 31-46) *)

(** The dictionary put into [button_queue] by the input worker and by the web
    routes: ['button'] and ['timestamp'] (an ISO string). *)
Record ButtonData := mkButtonData {
  button : Z;
  timestamp : string
}.

(** The dictionary put into [web_queue] by the game worker. *)
Record Snapshot := mkSnapshot {
  snap_state : Phase;
  snap_level : Z;
  snap_score : Z;
  snap_high_score : Z
}.

Record Shared := mkShared {
  button_queue : list ButtonData;   (* mp.Queue(maxsize=50), oldest first *)
  web_queue : list Snapshot;        (* mp.Queue(maxsize=100), oldest first *)
  score : Z;                        (* mp.Value('i', 0) *)
  high_score : Z;                   (* mp.Value('i', 0) *)
  stop_event : bool;                (* mp.Event() *)
  game_active : bool                (* mp.Event() *)
}.

Definition button_queue_maxsize : nat := 50.
Definition web_queue_maxsize : nat := 100.

(** [SimonGameSystem.__init__] *)
Definition Shared_init : Shared :=
  {| button_queue := []; web_queue := []; score := 0; high_score := 0;
     stop_event := false; game_active := false |}.

Definition with_button_queue (q : list ButtonData) (sh : Shared) : Shared :=
  {| button_queue := q; web_queue := web_queue sh; score := score sh;
     high_score := high_score sh; stop_event := stop_event sh;
     game_active := game_active sh |}.

Definition with_web_queue (q : list Snapshot) (sh : Shared) : Shared :=
  {| button_queue := button_queue sh; web_queue := q; score := score sh;
     high_score := high_score sh; stop_event := stop_event sh;
     game_active := game_active sh |}.

Definition with_score (v : Z) (sh : Shared) : Shared :=
  {| button_queue := button_queue sh; web_queue := web_queue sh; score := v;
     high_score := high_score sh; stop_event := stop_event sh;
     game_active := game_active sh |}.

Definition with_high_score (v : Z) (sh : Shared) : Shared :=
  {| button_queue := button_queue sh; web_queue := web_queue sh;
     score := score sh; high_score := v; stop_event := stop_event sh;
     game_active := game_active sh |}.

Definition with_stop_event (v : bool) (sh : Shared) : Shared :=
  {| button_queue := button_queue sh; web_queue := web_queue sh;
     score := score sh; high_score := high_score sh; stop_event := v;
     game_active := game_active sh |}.

Definition with_game_active (v : bool) (sh : Shared) : Shared :=
  {| button_queue := button_queue sh; web_queue := web_queue sh;
     score := score sh; high_score := high_score sh;
     stop_event := stop_event sh; game_active := v |}.

(** A value stored into an [mp.Value('i', _)] cell is kept in a C [int]:
    ctypes does no overflow check, the store wraps to 32 bits, signed. *)
Definition c_int (z : Z) : Z :=
  ((z + 2 ^ 31) `mod` 2 ^ 32 - 2 ^ 31)%Z.

(** ** [multiprocessing.Queue] with a positive [maxsize] *)

(** [put(x, block=False)]: raises [Full] when [maxsize] items are waiting. *)
Definition put {A : Type} (maxsize : nat) (x : A) (q : list A)
  : list A * outcome unit :=
  if decide (length q < maxsize) then (q ++ [x], Return ())
  else (q, Raise Full).

(** [get(timeout=t)]: the oldest item, or [Empty] once the timeout expires. *)
Definition get {A : Type} (q : list A) : list A * outcome A :=
  match q with
  | [] => (q, Raise Empty)
  | x :: q' => (q', Return x)
  end.

(** ** [GameControllerProcess] (game_controller.py, lines 138-219) *)

(** Requests made to the [LEDController], in order.  The celebration and
    game-over patterns run in threads of their own; the entry records their
    start. *)
Inductive LedCommand :=
| Flash (led_index : Z) (duration_ms : Z)
| CelebrationSequence
| GameOverSequence
| Cleanup.

(** What the game worker owns: its [GameLogic], the rows handed to
    [DatabaseManager.save_game_result] (score, level) in call order, the LED
    requests, the number of [show_sequence] threads started and not yet
    finished, and whether [run] is still inside its [while]. *)
Record Controller := mkController {
  game_logic : GameLogic;
  db : list (Z * Z);
  leds : list LedCommand;
  presenters : nat;
  running : bool
}.

Definition Controller_init : Controller :=
  {| game_logic := GameLogic_init; db := []; leds := []; presenters := 0;
     running := true |}.

(** Lines 165-195: the handling of one dequeued button press.  [entropy] is
    the draw used if this press starts a game or a level. *)
Definition on_button (entropy button_index : Z) (sh : Shared) (c : Controller)
  : Shared * Controller :=
  let g := game_logic c in
  if decide (state g = WAITING) then
    (with_game_active true sh,
     {| game_logic := start_new_game entropy g; db := db c; leds := leds c;
        presenters := S (presenters c); running := running c |})
  else if decide (state g = PLAYING) then
    let leds1 := leds c ++ [Flash button_index 300] in
    match check_input button_index g with
    | (g1, Return WIN_LEVEL) =>
        (with_score (c_int (score sh + 10)) sh,
         {| game_logic := next_level entropy g1; db := db c;
            leds := leds1 ++ [CelebrationSequence];
            presenters := S (presenters c); running := running c |})
    | (g1, Return GAME_OVER) =>
        let sh1 :=
          if (score sh >? high_score sh)%Z
          then with_high_score (score sh) sh else sh in
        (with_game_active false (with_score 0 sh1),
         {| game_logic := reset g1;
            db := db c ++ [(score sh1, level g1)];
            leds := leds1 ++ [GameOverSequence];
            presenters := presenters c; running := running c |})
    | (g1, Return CORRECT) =>
        (sh, {| game_logic := g1; db := db c; leds := leds1;
                presenters := presenters c; running := running c |})
    | (g1, Raise _) =>
        (* swallowed by the bare [except: pass] of line 196 *)
        (sh, {| game_logic := g1; db := db c; leds := leds1;
                presenters := presenters c; running := running c |})
    end
  else (sh, c).

(** Lines 199-207: the snapshot put into [web_queue]; [Full] is swallowed. *)
Definition publish_state (sh : Shared) (c : Controller) : Shared :=
  let snap := {| snap_state := state (game_logic c);
                 snap_level := level (game_logic c);
                 snap_score := score sh;
                 snap_high_score := high_score sh |} in
  with_web_queue (fst (put web_queue_maxsize snap (web_queue sh))) sh.

(** Lines 161-209: the body of the [while] of [run]. *)
Definition run_body (entropy : Z) (sh : Shared) (c : Controller)
  : Shared * Controller :=
  let '(sh1, c1) :=
    match get (button_queue sh) with
    | (q, Return button_data) =>
        on_button entropy (button button_data) (with_button_queue q sh) c
    | (_, Raise _) => (sh, c)
    end in
  (publish_state sh1 c1, c1).

(** Lines 160 and 210-211: the loop test followed by one body, or the exit
    through [finally: led_controller.cleanup()]. *)
Definition run_step (entropy : Z) (sh : Shared) (c : Controller)
  : Shared * Controller :=
  if stop_event sh then
    (sh, {| game_logic := game_logic c; db := db c;
            leds := leds c ++ [Cleanup];
            presenters := presenters c; running := false |})
  else run_body entropy sh c.

(** Lines 213-219: [show_sequence], the thread that plays the sequence and
    then opens the input phase.  The [for] has no test of its own. *)
Definition show_sequence (c : Controller) : Controller :=
  let g := game_logic c in
  {| game_logic := {| sequence := sequence g; player_input := player_input g;
                      level := level g; state := PLAYING |};
     db := db c;
     leds := fold_left (fun l led_index => l ++ [Flash led_index 600])
                       (sequence g) (leds c);
     presenters := pred (presenters c);
     running := running c |}.

(** *** The game worker as a transition system

    One transition is one turn of the driving loop, the end of a playback
    thread, or a move of the environment on the shared objects: another
    process publishes a press, the web worker takes a snapshot, the stop
    signal is raised.  Nothing clears [stop_event].  A playback thread is a
    daemon thread: it exists only while the process runs.  A turn of the
    driving loop is one step: the only write of a playback thread is its final
    [state = 'PLAYING'], made at least a second after the turn that started
    it, and while that thread exists the driving loop leaves the game
    untouched, so finer interleavings reach the same states. *)
Inductive GameAction :=
| DrivingLoop (entropy : Z)
| Presenter
| EnvPublish (button_data : ButtonData)
| EnvWebGet
| EnvStop.

Definition game_step (a : GameAction) (s : Shared * Controller)
  : option (Shared * Controller) :=
  let '(sh, c) := s in
  match a with
  | DrivingLoop entropy =>
      if running c then Some (run_step entropy sh c) else None
  | Presenter =>
      if running c && bool_decide (0 < presenters c)
      then Some (sh, show_sequence c) else None
  | EnvPublish button_data =>
      Some (with_button_queue
              (fst (put button_queue_maxsize button_data (button_queue sh)))
              sh, c)
  | EnvWebGet => Some (with_web_queue (fst (get (web_queue sh))) sh, c)
  | EnvStop => Some (with_stop_event true sh, c)
  end.

Inductive game_reachable : Shared * Controller -> Prop :=
| game_reachable_init : game_reachable (Shared_init, Controller_init)
| game_reachable_step s a s' :
    game_reachable s -> game_step a s = Some s' -> game_reachable s'.

(** Running a whole schedule; [None] when some action is not enabled. *)
Fixpoint game_exec (schedule : list GameAction) (s : Shared * Controller)
  : option (Shared * Controller) :=
  match schedule with
  | [] => Some s
  | a :: rest =>
      match game_step a s with
      | Some s' => game_exec rest s'
      | None => None
      end
  end.

(** ** [ButtonMonitor] (input_handler.py, lines 22-93) *)

Record ButtonMonitor := mkButtonMonitor {
  last_press_times : gmap Z float;
  debounce_delay : float;
  button_presses : list Z
}.

Definition BUTTON_PINS : gmap Z Z := {[ 0%Z := 17%Z; 1%Z := 27%Z; 2%Z := 5%Z ]}.

(** [ButtonMonitor.__init__].  The stored times start at the integer 0, which
    the first subtraction converts to the float 0; [debounce_delay] is the
    float of [0.2]. *)
Definition ButtonMonitor_init : ButtonMonitor :=
  {| last_press_times := {[ 0%Z := 0%float; 1%Z := 0%float; 2%Z := 0%float ]};
     debounce_delay := 0x1.999999999999ap-3;
     button_presses := [] |}.

(** What one turn of a polling loop reads: [time.time()] and
    [GPIO.input(pin)]. *)
Record Sample := mkSample {
  now : float;
  pin_level : bool
}.

(** Lines 58-62 and 79-83: the debounce test and the recording of a press.
    [(current_time - last) > self.debounce_delay] is a float subtraction and
    a float comparison. *)
Definition register_press (button_index : Z) (current_time : float)
    (bm : ButtonMonitor) : outcome ButtonMonitor :=
  match last_press_times bm !! button_index with
  | None => Raise KeyError
  | Some last =>
      if PrimFloat.ltb (debounce_delay bm) (PrimFloat.sub current_time last) then
        Return {| last_press_times :=
                    <[button_index := current_time]> (last_press_times bm);
                  debounce_delay := debounce_delay bm;
                  button_presses := button_presses bm ++ [button_index] |}
      else Return bm
  end.

(** Lines 49-65: one turn of the loop of the Grove button, which reads HIGH
    when pressed.  Without the GPIO library the turn only sleeps. *)
Definition poll_high (RASPBERRY_PI : bool) (button_index : Z) (smp : Sample)
    (st : ButtonMonitor * bool) : outcome (ButtonMonitor * bool) :=
  let '(bm, last_state) := st in
  if RASPBERRY_PI then
    let current_state := pin_level smp in
    let current_time := now smp in
    if current_state && negb last_state then
      match register_press button_index current_time bm with
      | Return bm' => Return (bm', current_state)
      | Raise e => Raise e
      end
    else Return (bm, current_state)
  else Return st.

(** Lines 70-86: one turn of the loop of a pull-up button, which reads LOW
    when pressed. *)
Definition poll_low (RASPBERRY_PI : bool) (button_index : Z) (smp : Sample)
    (st : ButtonMonitor * bool) : outcome (ButtonMonitor * bool) :=
  let '(bm, last_state) := st in
  if RASPBERRY_PI then
    let current_state := pin_level smp in
    let current_time := now smp in
    if negb current_state && last_state then
      match register_press button_index current_time bm with
      | Return bm' => Return (bm', current_state)
      | Raise e => Raise e
      end
    else Return (bm, current_state)
  else Return st.

(** [while True]: one turn per sample, for as many samples as have been read;
    an exception ends the thread. *)
Fixpoint polling
    (turn : Sample -> ButtonMonitor * bool -> outcome (ButtonMonitor * bool))
    (samples : list Sample) (st : ButtonMonitor * bool)
  : ButtonMonitor * bool :=
  match samples with
  | [] => st
  | smp :: rest =>
      match turn smp st with
      | Return st' => polling turn rest st'
      | Raise _ => st
      end
  end.

(** The turn and the initial [last_state] that [monitor_button] selects. *)
Definition turn_of (RASPBERRY_PI : bool) (button_index : Z)
  : Sample -> ButtonMonitor * bool -> outcome (ButtonMonitor * bool) :=
  if decide (button_index = 2%Z)
  then poll_high RASPBERRY_PI button_index
  else poll_low RASPBERRY_PI button_index.

Definition initial_last_state (button_index : Z) : bool :=
  if decide (button_index = 2%Z) then false else true.

(** [monitor_button], run over the samples its loop has read so far. *)
Definition monitor_button (RASPBERRY_PI : bool) (button_index : Z)
    (samples : list Sample) (bm : ButtonMonitor) : ButtonMonitor :=
  match BUTTON_PINS !! button_index with
  | None => bm
  | Some pin =>
      fst (polling (turn_of RASPBERRY_PI button_index) samples
                   (bm, initial_last_state button_index))
  end.

(** [get_button_press] *)
Definition get_button_press (bm : ButtonMonitor) : ButtonMonitor * option Z :=
  match button_presses bm with
  | [] => (bm, None)
  | b :: rest =>
      ({| last_press_times := last_press_times bm;
          debounce_delay := debounce_delay bm;
          button_presses := rest |}, Some b)
  end.

(** ** [InputHandlerProcess] (input_handler.py, lines 96-141) *)

(** What the input worker owns: the [ButtonMonitor], the local [last_state]
    of each of the three polling threads, and whether [run] is still inside
    its [while]. *)
Record InputHandler := mkInputHandler {
  button_monitor : ButtonMonitor;
  last_state : gmap Z bool;
  forwarding : bool
}.

Definition InputHandler_init : InputHandler :=
  {| button_monitor := ButtonMonitor_init;
     last_state := {[ 0%Z := initial_last_state 0;
                      1%Z := initial_last_state 1;
                      2%Z := initial_last_state 2 ]};
     forwarding := true |}.

(** Lines 124-135: the body of the [while] of [run]; [Full] is swallowed. *)
Definition forward_body (stamp : string) (sh : Shared) (ih : InputHandler)
  : Shared * InputHandler :=
  match get_button_press (button_monitor ih) with
  | (bm, Some b) =>
      let button_data := {| button := b; timestamp := stamp |} in
      (with_button_queue
         (fst (put button_queue_maxsize button_data (button_queue sh))) sh,
       {| button_monitor := bm; last_state := last_state ih;
          forwarding := forwarding ih |})
  | (_, None) => (sh, ih)
  end.

(** Line 123: the loop test followed by one body, or the exit. *)
Definition forward_step (stamp : string) (sh : Shared) (ih : InputHandler)
  : Shared * InputHandler :=
  if stop_event sh then
    (sh, {| button_monitor := button_monitor ih; last_state := last_state ih;
            forwarding := false |})
  else forward_body stamp sh ih.

(** One turn of the polling thread of [button_index] inside the worker. *)
Definition poll_step (RASPBERRY_PI : bool) (button_index : Z) (smp : Sample)
    (ih : InputHandler) : option InputHandler :=
  match BUTTON_PINS !! button_index, last_state ih !! button_index with
  | Some _, Some ls =>
      match turn_of RASPBERRY_PI button_index smp (button_monitor ih, ls) with
      | Return (bm, ls') =>
          Some {| button_monitor := bm;
                  last_state := <[button_index := ls']> (last_state ih);
                  forwarding := forwarding ih |}
      | Raise _ => None
      end
  | _, _ => None
  end.

(** The input worker as a transition system: a turn of one polling thread, a
    turn of the forwarding loop, or a move of the environment (the game worker
    takes a press, the stop signal is raised).  The polling threads are daemon
    threads: they exist only while the process runs. *)
Inductive InputAction :=
| Poll (button_index : Z) (smp : Sample)
| Forward (stamp : string)
| EnvButtonGet
| EnvStopInput.

Definition input_step (RASPBERRY_PI : bool) (a : InputAction)
    (s : Shared * InputHandler) : option (Shared * InputHandler) :=
  let '(sh, ih) := s in
  match a with
  | Poll button_index smp =>
      if forwarding ih then
        match poll_step RASPBERRY_PI button_index smp ih with
        | Some ih' => Some (sh, ih')
        | None => None
        end
      else None
  | Forward stamp =>
      if forwarding ih then Some (forward_step stamp sh ih) else None
  | EnvButtonGet => Some (with_button_queue (fst (get (button_queue sh))) sh, ih)
  | EnvStopInput => Some (with_stop_event true sh, ih)
  end.

Fixpoint input_exec (RASPBERRY_PI : bool) (schedule : list InputAction)
    (s : Shared * InputHandler) : option (Shared * InputHandler) :=
  match schedule with
  | [] => Some s
  | a :: rest =>
      match input_step RASPBERRY_PI a s with
      | Some s' => input_exec RASPBERRY_PI rest s'
      | None => None
      end
  end.

(** ** The publishing routes of the web worker (web_server.py, 105-130) *)

Record JSONResponse := mkJSONResponse {
  status_code : Z;
  success : bool;
  echoed_button : option Z
}.

(** [POST /api/game/start] *)
Definition start_game (stamp : string) (sh : Shared) : Shared * JSONResponse :=
  let button_data := {| button := 0; timestamp := stamp |} in
  match put button_queue_maxsize button_data (button_queue sh) with
  | (q, Return _) =>
      (with_button_queue q sh,
       {| status_code := 200; success := true; echoed_button := None |})
  | (_, Raise _) =>
      (sh, {| status_code := 500; success := false; echoed_button := None |})
  end.

(** [POST /api/game/button/{button_index}] *)
Definition press_button (button_index : Z) (stamp : string) (sh : Shared)
  : Shared * JSONResponse :=
  if negb (bool_decide (button_index ∈ [0%Z; 1%Z; 2%Z])) then
    (sh, {| status_code := 400; success := false; echoed_button := None |})
  else
    let button_data := {| button := button_index; timestamp := stamp |} in
    match put button_queue_maxsize button_data (button_queue sh) with
    | (q, Return _) =>
        (with_button_queue q sh,
         {| status_code := 200; success := true;
            echoed_button := Some button_index |})
    | (_, Raise _) =>
        (sh, {| status_code := 500; success := false; echoed_button := None |})
    end.

(** ** [SimonGameSystem.monitor_processes] (main.py, lines 103-118) *)

(** Lines 108-112: the [for] over the processes, left at the first dead one.
    [alive] lists the answers of [is_alive()] in process order. *)
Fixpoint check_alive (alive : list bool) (sh : Shared) : Shared :=
  match alive with
  | [] => sh
  | a :: rest =>
      if negb a then with_stop_event true sh else check_alive rest sh
  end.

(** Line 106: the loop test followed by one body, or the exit.  The second
    component tells whether the loop is still running. *)
Definition monitor_step (alive : list bool) (sh : Shared) : Shared * bool :=
  if stop_event sh then (sh, false) else (check_alive alive sh, true).

(** ** [LEDController] (game_controller.py, lines 25-81) *)

(** The calls made to the GPIO library, oldest first. *)
Inductive GPIOCall :=
| GPIO_setmode_BCM
| GPIO_setup_out (pin : Z)
| GPIO_output (pin : Z) (high : bool)
| GPIO_cleanup.

Record LEDController := mkLEDController {
  led_states : gmap Z bool;      (* self.states *)
  gpio_calls : list GPIOCall
}.

Definition LED_PINS : gmap Z Z := {[ 0%Z := 22%Z; 1%Z := 23%Z; 2%Z := 24%Z ]}.

(** The keys of [LED_PINS] in the order Python iterates them. *)
Definition LED_PINS_keys : list Z := [0%Z; 1%Z; 2%Z].

(** [LEDController.__init__] *)
Definition LEDController_init (RASPBERRY_PI : bool) : LEDController :=
  {| led_states := {[ 0%Z := false; 1%Z := false; 2%Z := false ]};
     gpio_calls :=
       if RASPBERRY_PI then
         [ GPIO_setmode_BCM;
           GPIO_setup_out 22; GPIO_output 22 false;
           GPIO_setup_out 23; GPIO_output 23 false;
           GPIO_setup_out 24; GPIO_output 24 false ]
       else [] |}.

(** [turn_on] and [turn_off]: guarded by [led_index in self.LED_PINS]. *)
Definition led_set (RASPBERRY_PI : bool) (high : bool) (led_index : Z)
    (lc : LEDController) : LEDController :=
  match LED_PINS !! led_index with
  | Some pin =>
      {| led_states := <[led_index := high]> (led_states lc);
         gpio_calls :=
           if RASPBERRY_PI then gpio_calls lc ++ [GPIO_output pin high]
           else gpio_calls lc |}
  | None => lc
  end.

Definition turn_on (RASPBERRY_PI : bool) (led_index : Z) (lc : LEDController)
  : LEDController := led_set RASPBERRY_PI true led_index lc.

Definition turn_off (RASPBERRY_PI : bool) (led_index : Z) (lc : LEDController)
  : LEDController := led_set RASPBERRY_PI false led_index lc.

(** [turn_off_all] *)
Definition turn_off_all (RASPBERRY_PI : bool) (lc : LEDController)
  : LEDController :=
  fold_left (fun c led_index => turn_off RASPBERRY_PI led_index c)
            LED_PINS_keys lc.

(** [flash]: on, sleep, off. *)
Definition flash (RASPBERRY_PI : bool) (led_index : Z) (lc : LEDController)
  : LEDController :=
  turn_off RASPBERRY_PI led_index (turn_on RASPBERRY_PI led_index lc).

(** [celebration_sequence]: three rounds of each LED on and off in turn. *)
Definition celebration_round (RASPBERRY_PI : bool) (lc : LEDController)
  : LEDController :=
  fold_left (fun c led => turn_off RASPBERRY_PI led (turn_on RASPBERRY_PI led c))
            [0%Z; 1%Z; 2%Z] lc.

Definition celebration_sequence (RASPBERRY_PI : bool) (lc : LEDController)
  : LEDController :=
  Nat.iter 3 (celebration_round RASPBERRY_PI) lc.

(** [game_over_sequence]: five rounds of all LEDs on, then all off. *)
Definition game_over_round (RASPBERRY_PI : bool) (lc : LEDController)
  : LEDController :=
  turn_off_all RASPBERRY_PI
    (fold_left (fun c led => turn_on RASPBERRY_PI led c) [0%Z; 1%Z; 2%Z] lc).

Definition game_over_sequence (RASPBERRY_PI : bool) (lc : LEDController)
  : LEDController :=
  Nat.iter 5 (game_over_round RASPBERRY_PI) lc.

(** [cleanup] *)
Definition cleanup (RASPBERRY_PI : bool) (lc : LEDController) : LEDController :=
  let lc1 := turn_off_all RASPBERRY_PI lc in
  {| led_states := led_states lc1;
     gpio_calls :=
       if RASPBERRY_PI then gpio_calls lc1 ++ [GPIO_cleanup]
       else gpio_calls lc1 |}.

(** The level last written to [pin], if any. *)
Fixpoint pin_output (calls : list GPIOCall) (pin : Z) : option bool :=
  match calls with
  | [] => None
  | call :: rest =>
      match pin_output rest pin with
      | Some v => Some v
      | None =>
          match call with
          | GPIO_output p v => if decide (p = pin) then Some v else None
          | _ => None
          end
      end
  end.

(** Every LED is recorded as off. *)
Definition all_off (lc : LEDController) : Prop :=
  ∀ led_index, led_index ∈ LED_PINS_keys ->
    led_states lc !! led_index = Some false.

(** The recorded state of every LED is the level last written to its pin. *)
Definition mirrors_pins (lc : LEDController) : Prop :=
  ∀ led_index pin, LED_PINS !! led_index = Some pin ->
    is_Some (led_states lc !! led_index)
    /\ pin_output (gpio_calls lc) pin = led_states lc !! led_index.

(** ** Observing a polling loop *)

(** Whether a turn recorded a press: the list of presses grew. *)
Definition emitted
    (turn : Sample -> ButtonMonitor * bool -> outcome (ButtonMonitor * bool))
    (smp : Sample) (st : ButtonMonitor * bool) : bool :=
  match turn smp st with
  | Return (bm', _) =>
      negb (length (button_presses bm') =? length (button_presses (fst st)))%nat
  | Raise _ => false
  end.

(** The answer of [emitted] for each turn of [polling], in order. *)
Fixpoint emissions
    (turn : Sample -> ButtonMonitor * bool -> outcome (ButtonMonitor * bool))
    (samples : list Sample) (st : ButtonMonitor * bool) : list bool :=
  match samples with
  | [] => []
  | smp :: rest =>
      match turn smp st with
      | Return st' => emitted turn smp st :: emissions turn rest st'
      | Raise _ => []
      end
  end.

(** The monitor after a press of [button_index] recorded at time [t]. *)
Definition with_press (button_index : Z) (t : float) (bm : ButtonMonitor)
  : ButtonMonitor :=
  {| last_press_times := <[button_index := t]> (last_press_times bm);
     debounce_delay := debounce_delay bm;
     button_presses := button_presses bm ++ [button_index] |}.

(** How the time [T] stored in [last_press_times] relates to the last event
    [prev] emitted by the loop: it is its time, or no event was emitted yet
    and every reading of the clock is later than [d] after [T]. *)
Definition linked (d T : float) (prev : option float) (samples : list Sample)
  : Prop :=
  prev = Some T
  \/ (prev = None
      /\ Forall (fun smp => PrimFloat.ltb d (PrimFloat.sub (now smp) T) = true)
                samples).

(** ** The edge detector in the words of the specification

    These definitions follow section 4.1 of the specification, not the
    source; the theorems compare them with [monitor_button]. *)

Inductive Polarity := active_high | active_low.

(** The Grove button (index 2) is active high, the other two active low. *)
Definition polarity_of (button_index : Z) : Polarity :=
  if decide (button_index = 2%Z) then active_high else active_low.

Definition is_active (pol : Polarity) (lvl : bool) : bool :=
  match pol with
  | active_high => lvl
  | active_low => negb lvl
  end.

(** The level an idle button shows to its detector. *)
Definition idle_level (pol : Polarity) : bool :=
  match pol with
  | active_high => false
  | active_low => true
  end.

(** The level read just before sample [i]: the previous sample, or [l0]
    before the first one. *)
Definition level_before (l0 : bool) (samples : list Sample) (i : nat) : bool :=
  match i with
  | 0 => l0
  | S j => default l0 (pin_level <$> samples !! j)
  end.

(** Sample [i] is a transition into the active level. *)
Definition active_edge (pol : Polarity) (l0 : bool) (samples : list Sample)
    (i : nat) : bool :=
  match samples !! i with
  | Some smp =>
      is_active pol (pin_level smp)
      && negb (is_active pol (level_before l0 samples i))
  | None => false
  end.

(** The time of the last event emitted before sample [i], given which
    samples emitted; [prev] when there is none. *)
Fixpoint last_event_before (prev : option float) (flags : list bool)
    (samples : list Sample) (i : nat) : option float :=
  match i with
  | 0 => prev
  | S j =>
      match flags !! j, samples !! j with
      | Some true, Some smp => Some (now smp)
      | _, _ => last_event_before prev flags samples j
      end
  end.

(** Strictly more than [d] after the last event, if there was one: the
    interval between two clock readings is their float difference. *)
Definition clear_of (d : float) (last : option float) (t : float) : bool :=
  match last with
  | None => true
  | Some p => PrimFloat.ltb d (PrimFloat.sub t p)
  end.

(** The times of the transitions into the active level, in order. *)
Fixpoint edge_times (pol : Polarity) (l0 : bool) (samples : list Sample)
  : list float :=
  match samples with
  | [] => []
  | smp :: rest =>
      (if is_active pol (pin_level smp) && negb (is_active pol l0)
       then [now smp] else [])
      ++ edge_times pol (pin_level smp) rest
  end.

(** The edges that become events: each one strictly more than [d] after the
    last edge that became an event. *)
Fixpoint debounce (d : float) (last : option float) (edges : list float)
  : list float :=
  match edges with
  | [] => []
  | t :: rest =>
      if clear_of d last t then t :: debounce d (Some t) rest
      else debounce d last rest
  end.

(** ** The scenario of the specification

    A press starts the game (the draw gives 1), the playback ends, the player
    repeats 1 and wins the level (the draw gives 2), the playback ends, and
    the player presses 0 where 1 was expected. *)
Definition scenario_schedule : list GameAction :=
  [ EnvPublish {| button := 0; timestamp := "t0" |}; DrivingLoop 1; Presenter;
    EnvPublish {| button := 1; timestamp := "t1" |}; DrivingLoop 2; Presenter;
    EnvPublish {| button := 0; timestamp := "t2" |}; DrivingLoop 0 ].

(** ** Invariants *)

(** [level] counts the entries of [sequence]. *)
Definition level_counts_sequence (g : GameLogic) : Prop :=
  level g = Z.of_nat (length (sequence g)).

(** What holds of the game worker between two transitions: the phase is one
    of WAITING, SHOWING, PLAYING (WIN and LOSE are left within the turn that
    enters them); a playback thread exists exactly in phase SHOWING; in phase
    PLAYING the player's input is shorter than the sequence. *)
Definition game_inv (s : Shared * Controller) : Prop :=
  let g := game_logic (snd s) in
  level_counts_sequence g
  /\ match state g with
     | WAITING =>
         sequence g = [] /\ player_input g = [] /\ presenters (snd s) = 0
     | SHOWING =>
         sequence g ≠ [] /\ player_input g = [] /\ presenters (snd s) = 1
     | PLAYING =>
         length (player_input g) < length (sequence g)
         /\ presenters (snd s) = 0
     | WIN | LOSE => False
     end.

(** The score that goes with a state of the game: nothing while waiting,
    ten points for each level completed during a round. *)
Definition round_score (g : GameLogic) : Z :=
  match state g with
  | WAITING => 0%Z
  | _ => c_int (10 * (level g - 1))
  end.

(** The highest of the stored scores, 0 when there is none. *)
Definition best_stored (rows : list (Z * Z)) : Z :=
  foldr Z.max 0%Z (map fst rows).

(** How the shared objects and the stored results follow the game, between
    two transitions of the game worker. *)
Definition game_accounts (s : Shared * Controller) : Prop :=
  let g := game_logic (snd s) in
  score (fst s) = round_score g
  /\ game_active (fst s) = bool_decide (state g ≠ WAITING)
  /\ length (button_queue (fst s)) <= button_queue_maxsize
  /\ length (web_queue (fst s)) <= web_queue_maxsize
  /\ high_score (fst s) = best_stored (db (snd s))
  /\ Forall (fun x => x ∈ [0%Z; 1%Z; 2%Z]) (sequence g)
  /\ Forall (fun row => fst row = c_int (10 * (snd row - 1))
                        /\ (1 <= snd row)%Z) (db (snd s)).

(** ** The state worker of the web process (web_server.py, lines 22-63) *)

(** The module-level [game_state] dictionary, with its four keys. *)
Definition game_state_init : Snapshot :=
  {| snap_state := WAITING; snap_level := 0; snap_score := 0;
     snap_high_score := 0 |}.

(** Lines 56-63: the body of the [while] of [update_state_worker].  The
    dictionary takes the four keys of the snapshot, then its score and high
    score are overwritten from the shared cells; [Empty] is swallowed. *)
Definition update_state_body (sh : Shared) (game_state : Snapshot)
  : Shared * Snapshot :=
  match get (web_queue sh) with
  | (q, Return data) =>
      (with_web_queue q sh,
       {| snap_state := snap_state data; snap_level := snap_level data;
          snap_score := score sh; snap_high_score := high_score sh |})
  | (_, Raise _) => (sh, game_state)
  end.

(** Line 55: [while not self.stop_event.is_set()], for at most [turns]
    turns. *)
Fixpoint update_state_worker (turns : nat) (sh : Shared) (game_state : Snapshot)
  : Shared * Snapshot :=
  match turns with
  | 0 => (sh, game_state)
  | S n =>
      if stop_event sh then (sh, game_state)
      else
        let '(sh1, game_state1) := update_state_body sh game_state in
        update_state_worker n sh1 game_state1
  end.

(** Only button indices 0, 1 and 2 are held by the monitor and the queue. *)
Definition presses_valid (s : Shared * InputHandler) : Prop :=
  Forall (fun b => b ∈ [0%Z; 1%Z; 2%Z])
         (button_presses (button_monitor (snd s)))
  /\ Forall (fun d => button d ∈ [0%Z; 1%Z; 2%Z]) (button_queue (fst s)).

(** * Properties *)

(** ** [GameLogic] *)

Section GameLogicFacts.
Implicit Types (g : GameLogic) (b entropy : Z).

Lemma randint_range a c entropy :
  (a <= c)%Z -> (a <= randint a c entropy <= c)%Z.
Proof.
  intros Hac. unfold randint.
  pose proof (Z.mod_pos_bound entropy (c - a + 1)) as Hm. lia.
Qed.

Lemma randint_0_2 entropy : randint 0 2 entropy ∈ [0%Z; 1%Z; 2%Z].
Proof.
  pose proof (randint_range 0 2 entropy ltac:(lia)) as Hr.
  assert (randint 0 2 entropy = 0 \/ randint 0 2 entropy = 1
          \/ randint 0 2 entropy = 2)%Z as Hc by lia.
  destruct Hc as [Hc | [Hc | Hc]]; rewrite Hc; repeat constructor.
Qed.

(** The position compared by [check_input] is the old length of the
    player's input, and the entry compared there is the new button. *)
Lemma check_input_position g b :
  (length (player_input g ++ [b]) - 1)%nat = length (player_input g)
  /\ (player_input g ++ [b]) !! length (player_input g) = Some b.
Proof.
  split.
  - rewrite length_app. simpl. lia.
  - rewrite lookup_app_r by lia. by rewrite Nat.sub_diag.
Qed.

(** [check_input] by cases on the sequence entry at the compared position. *)
Lemma check_input_some g b y :
  sequence g !! length (player_input g) = Some y ->
  check_input b g =
    if negb (b =? y)%Z then
      ({| sequence := sequence g; player_input := player_input g ++ [b];
          level := level g; state := LOSE |}, Return GAME_OVER)
    else if (S (length (player_input g)) =? length (sequence g))%nat then
      ({| sequence := sequence g; player_input := [];
          level := level g; state := WIN |}, Return WIN_LEVEL)
    else
      ({| sequence := sequence g; player_input := player_input g ++ [b];
          level := level g; state := state g |}, Return CORRECT).
Proof.
  intros Hy. unfold check_input.
  destruct (check_input_position g b) as [-> ->]. rewrite Hy.
  replace (length (player_input g ++ [b])) with (S (length (player_input g)))
    by (rewrite length_app; simpl; lia).
  reflexivity.
Qed.

Lemma check_input_none g b :
  sequence g !! length (player_input g) = None ->
  check_input b g =
    ({| sequence := sequence g; player_input := player_input g ++ [b];
        level := level g; state := state g |}, Raise IndexError).
Proof.
  intros Hy. unfold check_input.
  destruct (check_input_position g b) as [-> ->]. by rewrite Hy.
Qed.

(** [check_input] never touches the sequence or the level. *)
Lemma check_input_sequence g b :
  sequence (fst (check_input b g)) = sequence g
  /\ level (fst (check_input b g)) = level g.
Proof.
  destruct (sequence g !! length (player_input g)) as [y|] eqn:Hy.
  - rewrite (check_input_some g b y Hy).
    destruct (negb (b =? y)%Z); [done|].
    by destruct (S (length (player_input g)) =? length (sequence g))%nat.
  - by rewrite (check_input_none g b Hy).
Qed.
End GameLogicFacts.

(** C1. In phase Playing, with the player's input a proper prefix of the
    sequence, [check_input b] compares [b] with the sequence entry at the old
    input length: a different button gives GAME_OVER with the button appended
    and the phase LOSE; the same button that completes the sequence clears the
    input, sets the phase WIN and gives WIN_LEVEL; the same button short of
    the end is appended, gives CORRECT and leaves the phase PLAYING. *)
Theorem check_input_playing (g : GameLogic) (b : Z) :
  state g = PLAYING ->
  player_input g `prefix_of` sequence g ->
  player_input g ≠ sequence g ->
  ∃ y : Z,
    sequence g !! length (player_input g) = Some y
    /\ (b ≠ y ->
        check_input b g =
          ({| sequence := sequence g; player_input := player_input g ++ [b];
              level := level g; state := LOSE |}, Return GAME_OVER))
    /\ (b = y ->
        length (player_input g ++ [b]) = length (sequence g) ->
        check_input b g =
          ({| sequence := sequence g; player_input := [];
              level := level g; state := WIN |}, Return WIN_LEVEL))
    /\ (b = y ->
        length (player_input g ++ [b]) < length (sequence g) ->
        check_input b g =
          ({| sequence := sequence g; player_input := player_input g ++ [b];
              level := level g; state := PLAYING |}, Return CORRECT)).
Proof.
  intros Hst [k Hk] Hne.
  assert (length (player_input g) < length (sequence g)) as Hlt.
  { rewrite Hk, length_app. destruct k as [|z k]; simpl; [|lia].
    exfalso. apply Hne. by rewrite Hk, app_nil_r. }
  destruct (lookup_lt_is_Some_2 _ _ Hlt) as [y Hy].
  exists y. split; [done|].
  rewrite (check_input_some g b y Hy).
  assert (length (player_input g ++ [b]) = S (length (player_input g))) as ->
    by (rewrite length_app; simpl; lia).
  repeat split.
  - intros Hby. apply Z.eqb_neq in Hby. by rewrite Hby.
  - intros -> Hlen. rewrite Z.eqb_refl. cbn [negb].
    by destruct (Nat.eqb_spec (S (length (player_input g)))
                              (length (sequence g))).
  - intros -> Hlen. rewrite Z.eqb_refl, Hst. cbn [negb].
    destruct (Nat.eqb_spec (S (length (player_input g)))
                           (length (sequence g))); [lia | done].
Qed.

Lemma check_input_playing_witness :
  ∃ y : Z,
    [1%Z; 2%Z; 0%Z] !! 1%nat = Some y
    /\ check_input 2
         {| sequence := [1%Z; 2%Z; 0%Z]; player_input := [1%Z];
            level := 3; state := PLAYING |}
       = ({| sequence := [1%Z; 2%Z; 0%Z]; player_input := [1%Z; 2%Z];
             level := 3; state := PLAYING |}, Return CORRECT).
Proof.
  destruct (check_input_playing
              {| sequence := [1%Z; 2%Z; 0%Z]; player_input := [1%Z];
                 level := 3; state := PLAYING |} 2%Z)
    as (y & Hy & _ & _ & Hc).
  - reflexivity.
  - exists [2%Z; 0%Z]. reflexivity.
  - simpl. discriminate.
  - exists y. split; [exact Hy|]. simpl in Hy.
    apply Hc; [congruence | simpl; lia].
Defined.

(** C7. [next_level] keeps every entry of the old sequence in place and
    appends exactly one new entry, drawn from 0, 1, 2; it also clears the
    player's input and sets the phase SHOWING. *)
Theorem next_level_appends_one (entropy : Z) (g : GameLogic) :
  ∃ new_led : Z,
    new_led ∈ [0%Z; 1%Z; 2%Z]
    /\ sequence (next_level entropy g) = sequence g ++ [new_led]
    /\ length (sequence (next_level entropy g)) = S (length (sequence g))
    /\ take (length (sequence g)) (sequence (next_level entropy g))
       = sequence g
    /\ (∀ i y, sequence g !! i = Some y ->
               sequence (next_level entropy g) !! i = Some y)
    /\ player_input (next_level entropy g) = []
    /\ state (next_level entropy g) = SHOWING.
Proof.
  exists (randint 0 2 entropy). cbn [next_level add_to_sequence sequence
    player_input state].
  split; [apply randint_0_2|]. split; [done|].
  split; [rewrite length_app; simpl; lia|].
  split; [by rewrite take_app_length|].
  split; [|done].
  intros i y Hy. by apply lookup_app_l_Some.
Qed.

(** C8. [level] equals the length of [sequence] in the initial state, and
    [start_new_game], [check_input] (whatever its outcome), [next_level] and
    [reset] all keep it so. *)
Theorem level_counts_sequence_invariant :
  level_counts_sequence GameLogic_init
  /\ (∀ entropy g, level_counts_sequence (start_new_game entropy g))
  /\ (∀ b g, level_counts_sequence g ->
             level_counts_sequence (fst (check_input b g)))
  /\ (∀ entropy g, level_counts_sequence g ->
                   level_counts_sequence (next_level entropy g))
  /\ (∀ g, level_counts_sequence (reset g)).
Proof.
  unfold level_counts_sequence. repeat split.
  - intros b g Hg. destruct (check_input_sequence g b) as [-> ->]. exact Hg.
  - intros entropy g Hg.
    cbn [next_level add_to_sequence sequence level].
    rewrite length_app, Hg. simpl. lia.
Qed.

Lemma level_counts_sequence_invariant_witness :
  level_counts_sequence
    (fst (check_input 1
            {| sequence := [1%Z; 2%Z]; player_input := []; level := 2;
               state := PLAYING |}))
  /\ level_counts_sequence
       (next_level 5
          {| sequence := [1%Z; 2%Z]; player_input := []; level := 2;
             state := WIN |}).
Proof.
  destruct level_counts_sequence_invariant as (_ & _ & Hc & Hn & _).
  split; [apply Hc | apply Hn]; reflexivity.
Defined.

(** ** The driving loop of the game worker *)

Section DrivingLoopFacts.
Implicit Types (sh : Shared) (c : Controller) (g : GameLogic).

Lemma with_button_queue_same sh : with_button_queue (button_queue sh) sh = sh.
Proof. by destruct sh. Qed.

(** The three ways through [on_button]. *)
Lemma on_button_waiting entropy b sh c :
  state (game_logic c) = WAITING ->
  on_button entropy b sh c =
    (with_game_active true sh,
     {| game_logic := start_new_game entropy (game_logic c); db := db c;
        leds := leds c; presenters := S (presenters c);
        running := running c |}).
Proof. intros Hst. unfold on_button. by rewrite Hst. Qed.

Lemma on_button_ignored entropy b sh c :
  state (game_logic c) ≠ WAITING -> state (game_logic c) ≠ PLAYING ->
  on_button entropy b sh c = (sh, c).
Proof.
  intros Hw Hp. unfold on_button.
  destruct (decide (state (game_logic c) = WAITING)); [done|].
  by destruct (decide (state (game_logic c) = PLAYING)).
Qed.

Lemma on_button_game_over entropy b sh c g1 :
  state (game_logic c) = PLAYING ->
  check_input b (game_logic c) = (g1, Return GAME_OVER) ->
  on_button entropy b sh c =
    (let sh1 := if (score sh >? high_score sh)%Z
                then with_high_score (score sh) sh else sh in
     (with_game_active false (with_score 0 sh1),
      {| game_logic := reset g1;
         db := db c ++ [(score sh1, level g1)];
         leds := (leds c ++ [Flash b 300]) ++ [GameOverSequence];
         presenters := presenters c; running := running c |})).
Proof. intros Hst Hchk. unfold on_button. by rewrite Hst, Hchk. Qed.

(** The high score after a press: untouched, or raised to the score by a
    lost round. *)
Lemma on_button_high_score entropy b sh c :
  high_score (fst (on_button entropy b sh c)) = high_score sh
  \/ (state (game_logic c) = PLAYING
      /\ (∃ g1, check_input b (game_logic c) = (g1, Return GAME_OVER))
      /\ (score sh > high_score sh)%Z
      /\ high_score (fst (on_button entropy b sh c)) = score sh).
Proof.
  destruct (decide (state (game_logic c) = WAITING)) as [Hw|Hw].
  { left. by rewrite on_button_waiting. }
  destruct (decide (state (game_logic c) = PLAYING)) as [Hp|Hp].
  2: { left. by rewrite on_button_ignored. }
  destruct (check_input b (game_logic c)) as [g1 [[]|e]] eqn:Hchk.
  - rewrite (on_button_game_over _ _ _ _ g1 Hp Hchk). cbv zeta.
    destruct (score sh >? high_score sh)%Z eqn:Hgt.
    + apply Z.gtb_lt in Hgt.
      right. repeat split; [done | by exists g1 | lia].
    + by left.
  - left. unfold on_button. by rewrite Hp, Hchk.
  - left. unfold on_button. by rewrite Hp, Hchk.
  - left. unfold on_button. by rewrite Hp, Hchk.
Qed.

Lemma publish_state_fields sh c :
  button_queue (publish_state sh c) = button_queue sh
  /\ score (publish_state sh c) = score sh
  /\ high_score (publish_state sh c) = high_score sh
  /\ stop_event (publish_state sh c) = stop_event sh
  /\ game_active (publish_state sh c) = game_active sh.
Proof. done. Qed.

(** One body of the loop when a press is waiting in the queue. *)
Lemma run_body_press entropy sh c button_data q :
  button_queue sh = button_data :: q ->
  run_body entropy sh c =
    (let s1 := on_button entropy (button button_data)
                         (with_button_queue q sh) c in
     (publish_state (fst s1) (snd s1), snd s1)).
Proof.
  intros Hq. unfold run_body. rewrite Hq. cbn [get].
  by destruct (on_button _ _ _ _).
Qed.

Lemma run_body_empty entropy sh c :
  button_queue sh = [] -> run_body entropy sh c = (publish_state sh c, c).
Proof. intros Hq. unfold run_body. by rewrite Hq. Qed.
End DrivingLoopFacts.

(** C2. A press taken from the queue while the phase is SHOWING, or any phase
    other than WAITING and PLAYING, is dropped without effect: the turn leaves
    the whole state of the game worker as it was (sequence, player's input,
    level, phase, and also the stored results and the LED requests), and the
    shared objects change only by the press leaving the queue and the usual
    snapshot being published. *)
Theorem press_outside_waiting_playing_ignored
    (entropy : Z) (sh : Shared) (c : Controller)
    (button_data : ButtonData) (q : list ButtonData) :
  stop_event sh = false ->
  button_queue sh = button_data :: q ->
  state (game_logic c) ≠ WAITING ->
  state (game_logic c) ≠ PLAYING ->
  on_button entropy (button button_data) (with_button_queue q sh) c
    = (with_button_queue q sh, c)
  /\ run_step entropy sh c = (publish_state (with_button_queue q sh) c, c)
  /\ game_logic (snd (run_step entropy sh c)) = game_logic c
  /\ score (fst (run_step entropy sh c)) = score sh
  /\ high_score (fst (run_step entropy sh c)) = high_score sh.
Proof.
  intros Hstop Hq Hw Hp.
  assert (on_button entropy (button button_data) (with_button_queue q sh) c
          = (with_button_queue q sh, c)) as Hob
    by by apply on_button_ignored.
  assert (run_step entropy sh c = (publish_state (with_button_queue q sh) c, c))
    as Hrs.
  { unfold run_step. rewrite Hstop.
    rewrite (run_body_press _ _ _ _ _ Hq), Hob. done. }
  rewrite Hrs. done.
Qed.

Lemma press_outside_waiting_playing_ignored_witness :
  let sh := with_button_queue [ {| button := 1; timestamp := "t" |} ]
                              Shared_init in
  let c := {| game_logic := {| sequence := [2%Z]; player_input := [];
                               level := 1; state := SHOWING |};
              db := []; leds := []; presenters := 1; running := true |} in
  game_logic (snd (run_step 7 sh c)) = game_logic c.
Proof.
  intros sh c.
  apply (press_outside_waiting_playing_ignored 7 sh c
           {| button := 1; timestamp := "t" |} []);
    [reflexivity | reflexivity | discriminate | discriminate].
Defined.

(** C5. A turn of the driving loop whose [check_input] answers GAME_OVER:
    the high score becomes the score when the score is strictly greater and
    stays as it was otherwise; the score as it stood before the reset and the
    level reached are handed to [save_game_result]; the score is then 0; the
    game is back in WAITING with an empty sequence, an empty input and level
    0; and [game_active] is cleared. *)
Theorem game_over_turn
    (entropy : Z) (sh : Shared) (c : Controller)
    (button_data : ButtonData) (q : list ButtonData) (g1 : GameLogic) :
  stop_event sh = false ->
  button_queue sh = button_data :: q ->
  state (game_logic c) = PLAYING ->
  check_input (button button_data) (game_logic c) = (g1, Return GAME_OVER) ->
  let s' := run_step entropy sh c in
  ((score sh > high_score sh)%Z -> high_score (fst s') = score sh)
  /\ ((score sh <= high_score sh)%Z -> high_score (fst s') = high_score sh)
  /\ db (snd s') = db c ++ [(score sh, level (game_logic c))]
  /\ score (fst s') = 0%Z
  /\ game_logic (snd s') =
       {| sequence := []; player_input := []; level := 0; state := WAITING |}
  /\ game_active (fst s') = false.
Proof.
  intros Hstop Hq Hst Hchk s'. subst s'.
  unfold run_step. rewrite Hstop, (run_body_press _ _ _ _ _ Hq).
  rewrite (on_button_game_over _ _ _ _ g1 Hst Hchk). cbv zeta.
  pose proof (check_input_sequence (game_logic c) (button button_data))
    as [_ Hlvl].
  rewrite Hchk in Hlvl. cbn [fst] in Hlvl.
  cbn [fst snd db game_logic reset]. rewrite Hlvl.
  destruct (score (with_button_queue q sh)
            >? high_score (with_button_queue q sh))%Z eqn:Hgt;
    cbn [with_button_queue score high_score] in Hgt.
  - apply Z.gtb_lt in Hgt. repeat split; try done; lia.
  - assert (score sh <= high_score sh)%Z as Hle.
    { destruct (Z.gtb_spec (score sh) (high_score sh)); [done | lia]. }
    repeat split; try done; lia.
Qed.

(** The scenario of the specification: the sequence is 1, 2, the player has
    entered 1 after winning the first level (score 10) and now presses 0. *)
Lemma game_over_turn_witness :
  let sh := {| button_queue := [ {| button := 0; timestamp := "t" |} ];
               web_queue := []; score := 10; high_score := 0;
               stop_event := false; game_active := true |} in
  let c := {| game_logic := {| sequence := [1%Z; 2%Z]; player_input := [1%Z];
                               level := 2; state := PLAYING |};
              db := []; leds := []; presenters := 0; running := true |} in
  high_score (fst (run_step 0 sh c)) = 10%Z
  /\ db (snd (run_step 0 sh c)) = [(10%Z, 2%Z)]
  /\ score (fst (run_step 0 sh c)) = 0%Z.
Proof.
  intros sh c.
  destruct (game_over_turn 0 sh c {| button := 0; timestamp := "t" |} []
              {| sequence := [1%Z; 2%Z]; player_input := [1%Z; 0%Z];
                 level := 2; state := LOSE |})
    as (Hhi & _ & Hdb & Hsc & _);
    [reflexivity | reflexivity | reflexivity | reflexivity |].
  split; [apply Hhi; reflexivity | split; [exact Hdb | exact Hsc]].
Defined.

Section HighScoreFacts.

Lemma run_step_high_score entropy sh c :
  high_score (fst (run_step entropy sh c)) = high_score sh
  \/ ∃ button_data q g1,
       stop_event sh = false
       /\ button_queue sh = button_data :: q
       /\ state (game_logic c) = PLAYING
       /\ check_input (button button_data) (game_logic c)
          = (g1, Return GAME_OVER)
       /\ (score sh > high_score sh)%Z
       /\ high_score (fst (run_step entropy sh c)) = score sh.
Proof.
  unfold run_step. destruct (stop_event sh) eqn:Hstop; [by left|].
  destruct (button_queue sh) as [|button_data q] eqn:Hq.
  { left. by rewrite run_body_empty. }
  rewrite (run_body_press _ _ _ _ _ Hq). cbv zeta. cbn [fst].
  destruct (on_button_high_score entropy (button button_data)
              (with_button_queue q sh) c) as [Hsame | (Hp & [g1 Hg1] & Hgt & Hhs)].
  - left. exact Hsame.
  - right. exists button_data, q, g1. repeat split; try done.
Qed.

Lemma game_step_high_score a s s' :
  game_step a s = Some s' ->
  high_score (fst s') = high_score (fst s)
  \/ ∃ entropy button_data q g1,
       a = DrivingLoop entropy
       /\ stop_event (fst s) = false
       /\ button_queue (fst s) = button_data :: q
       /\ state (game_logic (snd s)) = PLAYING
       /\ check_input (button button_data) (game_logic (snd s))
          = (g1, Return GAME_OVER)
       /\ (score (fst s) > high_score (fst s))%Z
       /\ high_score (fst s') = score (fst s).
Proof.
  destruct s as [sh c]. destruct a as [entropy| |d| |]; cbn [game_step fst snd].
  - destruct (running c); [|done]. intros [= <-].
    destruct (run_step_high_score entropy sh c)
      as [Hsame | (d & q & g1 & H)]; [by left|].
    right. by exists entropy, d, q, g1.
  - destruct (running c && bool_decide (0 < presenters c)); [|done].
    intros [= <-]. by left.
  - intros [= <-]. by left.
  - intros [= <-]. by left.
  - intros [= <-]. by left.
Qed.
End HighScoreFacts.

(** C6. The high score never decreases: not in one transition of the game
    worker (a turn of the driving loop that wins, loses, ignores a press or
    idles, the end of a playback, a move of the environment), and so not
    along any execution.  It changes only in a turn whose [check_input]
    answers GAME_OVER while the score is strictly greater, and then it
    becomes that score. *)
Theorem high_score_never_decreases :
  (∀ a s s', game_step a s = Some s' ->
     (high_score (fst s) <= high_score (fst s'))%Z
     /\ (high_score (fst s') ≠ high_score (fst s) ->
         ∃ entropy button_data q g1,
           a = DrivingLoop entropy
           /\ stop_event (fst s) = false
           /\ button_queue (fst s) = button_data :: q
           /\ state (game_logic (snd s)) = PLAYING
           /\ check_input (button button_data) (game_logic (snd s))
              = (g1, Return GAME_OVER)
           /\ (score (fst s) > high_score (fst s))%Z
           /\ high_score (fst s') = score (fst s)))
  /\ (∀ schedule s s', game_exec schedule s = Some s' ->
        (high_score (fst s) <= high_score (fst s'))%Z).
Proof.
  assert (∀ a s s', game_step a s = Some s' ->
            (high_score (fst s) <= high_score (fst s'))%Z) as Hstep.
  { intros a s s' Hs.
    destruct (game_step_high_score a s s' Hs)
      as [-> | (e & d & q & g1 & _ & _ & _ & _ & _ & Hgt & ->)]; lia. }
  split.
  - intros a s s' Hs. split; [by eapply Hstep|].
    intros Hne. destruct (game_step_high_score a s s' Hs) as [Hsame | H];
      [done | exact H].
  - induction schedule as [|a rest IH]; intros s s' Hex; cbn [game_exec] in Hex.
    + injection Hex as <-. lia.
    + destruct (game_step a s) as [s1|] eqn:Hs; [|done].
      specialize (Hstep _ _ _ Hs). specialize (IH _ _ Hex). lia.
Qed.

Lemma high_score_never_decreases_witness :
  ∃ s', game_exec scenario_schedule (Shared_init, Controller_init) = Some s'
        /\ (high_score Shared_init <= high_score (fst s'))%Z.
Proof.
  destruct (game_exec scenario_schedule (Shared_init, Controller_init))
    as [s'|] eqn:Hex.
  - exists s'. split; [reflexivity|].
    exact (proj2 high_score_never_decreases scenario_schedule
             (Shared_init, Controller_init) s' Hex).
  - vm_compute in Hex. discriminate Hex.
Defined.

(** The scenario, run: score 10 after the first level, then the lost round
    resets the score, raises the high score to 10 and stores (10, 2). *)
Example scenario_after_first_level :
  option_map (fun s => (score (fst s), sequence (game_logic (snd s)),
                        state (game_logic (snd s))))
    (game_exec (take 6 scenario_schedule) (Shared_init, Controller_init))
  = Some (10%Z, [1%Z; 2%Z], PLAYING).
Proof. vm_compute. reflexivity. Qed.

Example scenario_after_loss :
  option_map (fun s => (score (fst s), high_score (fst s), db (snd s),
                        game_logic (snd s), game_active (fst s)))
    (game_exec scenario_schedule (Shared_init, Controller_init))
  = Some (0%Z, 10%Z, [(10%Z, 2%Z)], GameLogic_init, false).
Proof. vm_compute. reflexivity. Qed.

(** ** Reachable states of the game worker *)

Section Reachability.

Lemma game_inv_init : game_inv (Shared_init, Controller_init).
Proof. by cbv. Qed.

Lemma game_inv_shared sh sh' c : game_inv (sh, c) -> game_inv (sh', c).
Proof. done. Qed.

Lemma game_inv_on_button entropy b sh c :
  game_inv (sh, c) -> game_inv (on_button entropy b sh c).
Proof.
  intros [Hlvl Hst]. cbn [snd] in Hlvl, Hst.
  destruct (state (game_logic c)) eqn:Hphase; try done.
  - (* WAITING: a new game *)
    rewrite on_button_waiting by done. destruct Hst as (_ & _ & ->).
    split; [by cbv|]. cbn. repeat split; done.
  - (* SHOWING: ignored *)
    rewrite on_button_ignored by congruence.
    split; [done|]. cbn [snd]. by rewrite Hphase.
  - (* PLAYING *)
    destruct Hst as [Hlt Hpres].
    destruct (lookup_lt_is_Some_2 _ _ Hlt) as [y Hy].
    unfold on_button. rewrite Hphase. cbn [decide_rel].
    destruct (decide (PLAYING = WAITING)) as [|_]; [done|].
    destruct (decide (PLAYING = PLAYING)) as [_|]; [|done].
    rewrite (check_input_some _ b y Hy).
    destruct (negb (b =? y)%Z).
    { split; [by cbv|]. cbn. by rewrite Hpres. }
    destruct (Nat.eqb_spec (S (length (player_input (game_logic c))))
                           (length (sequence (game_logic c)))) as [Heq|Hneq].
    + split.
      * unfold level_counts_sequence in *. cbn.
        rewrite length_app, Hlvl. simpl. lia.
      * cbn. rewrite Hpres. repeat split; try done.
        by destruct (sequence (game_logic c)).
    + split; [done|]. cbn. rewrite Hphase. cbn.
      split; [|done]. rewrite length_app. simpl. lia.
Qed.

Lemma game_inv_step a s s' :
  game_inv s -> game_step a s = Some s' -> game_inv s'.
Proof.
  destruct s as [sh c]. intros Hinv.
  destruct a as [entropy| |d| |]; cbn [game_step].
  - destruct (running c); [|done]. intros [= <-].
    unfold run_step. destruct (stop_event sh).
    { destruct Hinv as [Hlvl Hst]. split; [done|]. exact Hst. }
    unfold run_body.
    destruct (button_queue sh) as [|d q]; cbn [get].
    + exact Hinv.
    + pose proof (game_inv_on_button entropy (button d)
                    (with_button_queue q sh) c Hinv) as H.
      destruct (on_button _ _ _ _) as [sh1 c1]. exact H.
  - destruct (running c); [|done]. cbn [andb].
    case_bool_decide as Hpos; [|done]. intros [= <-].
    destruct Hinv as [Hlvl Hst]. cbn [snd] in Hlvl, Hst.
    destruct (state (game_logic c)) eqn:Hphase; try done;
      try (destruct Hst as (_ & _ & Hz) || destruct Hst as (_ & Hz); lia).
    destruct Hst as (Hne & Hpi & Hpres).
    split; [done|]. cbn. rewrite Hpi, Hpres. split; [|done].
    destruct (sequence (game_logic c)); [done | simpl; lia].
  - intros [= <-]. exact Hinv.
  - intros [= <-]. exact Hinv.
  - intros [= <-]. exact Hinv.
Qed.

Lemma game_reachable_inv s : game_reachable s -> game_inv s.
Proof.
  induction 1 as [|s a s' _ IH Hstep];
    [apply game_inv_init | by eapply game_inv_step].
Qed.
End Reachability.

(** C10. [check_input] indexes the sequence at the old input length with no
    test of its own.  When the input is shorter than the sequence the access
    is in bounds and the call returns one of its three answers; every
    reachable state in phase PLAYING is such a state.  When the input is not
    shorter (with an empty sequence, for one) the call raises [IndexError]
    whatever the phase, having already appended the button: the operation has
    no guard, and the driving loop calls it only after testing that the phase
    is PLAYING. *)
Theorem check_input_bounds :
  (∀ b g, length (player_input g) < length (sequence g) ->
          ∃ r, snd (check_input b g) = Return r)
  /\ (∀ s, game_reachable s -> state (game_logic (snd s)) = PLAYING ->
           length (player_input (game_logic (snd s)))
           < length (sequence (game_logic (snd s))))
  /\ (∀ b g, length (sequence g) <= length (player_input g) ->
             check_input b g =
               ({| sequence := sequence g;
                   player_input := player_input g ++ [b];
                   level := level g; state := state g |}, Raise IndexError))
  /\ (∀ b ph, snd (check_input b {| sequence := []; player_input := [];
                                    level := 0; state := ph |})
              = Raise IndexError)
  /\ (∀ entropy b sh c,
        state (game_logic c) ≠ PLAYING ->
        on_button entropy b sh c =
          if decide (state (game_logic c) = WAITING)
          then (with_game_active true sh,
                {| game_logic := start_new_game entropy (game_logic c);
                   db := db c; leds := leds c;
                   presenters := S (presenters c); running := running c |})
          else (sh, c)).
Proof.
  split; [|split; [|split; [|split]]].
  - intros b g Hlt. destruct (lookup_lt_is_Some_2 _ _ Hlt) as [y Hy].
    rewrite (check_input_some g b y Hy).
    destruct (negb (b =? y)%Z); [by eexists|].
    destruct (S (length (player_input g)) =? length (sequence g))%nat;
      by eexists.
  - intros s Hreach Hphase.
    destruct (game_reachable_inv s Hreach) as [_ Hst].
    rewrite Hphase in Hst. by destruct Hst.
  - intros b g Hge. apply check_input_none. by apply lookup_ge_None_2.
  - intros b ph. reflexivity.
  - intros entropy b sh c Hp.
    destruct (decide (state (game_logic c) = WAITING)) as [Hw|Hw].
    + by apply on_button_waiting.
    + by apply on_button_ignored.
Qed.

Lemma check_input_bounds_witness :
  (∃ r, snd (check_input 2 {| sequence := [2%Z; 0%Z]; player_input := [];
                              level := 2; state := PLAYING |}) = Return r)
  /\ check_input 1 {| sequence := [2%Z]; player_input := [2%Z];
                      level := 1; state := WAITING |}
     = ({| sequence := [2%Z]; player_input := [2%Z; 1%Z];
           level := 1; state := WAITING |}, Raise IndexError).
Proof.
  destruct check_input_bounds as (Hin & _ & Hout & _).
  split.
  - apply Hin. simpl. lia.
  - apply (Hout 1%Z {| sequence := [2%Z]; player_input := [2%Z];
                       level := 1; state := WAITING |}). simpl. lia.
Defined.

(** ** Publishing into a full button queue *)

Section FullQueue.
Context {A : Type}.

Lemma put_full (maxsize : nat) (x : A) (q : list A) :
  maxsize <= length q -> put maxsize x q = (q, Raise Full).
Proof. intros Hfull. unfold put. case_decide; [lia | done]. Qed.

Lemma put_room (maxsize : nat) (x : A) (q : list A) :
  length q < maxsize -> put maxsize x q = (q ++ [x], Return ()).
Proof. intros Hroom. unfold put. case_decide; [done | lia]. Qed.

(** The queue never grows beyond its capacity. *)
Lemma put_bounded (maxsize : nat) (x : A) (q : list A) :
  length q <= maxsize -> length (fst (put maxsize x q)) <= maxsize.
Proof.
  intros Hle. unfold put. case_decide; cbn [fst]; [|done].
  rewrite length_app. simpl. lia.
Qed.
End FullQueue.

(** C9. Publishing a press into a button queue that already holds its 50
    entries: [put(block=False)] answers at once by raising [Full] and leaves
    the queue as it is; the forwarding loop of the input worker swallows the
    exception, so its turn ends normally with the press gone from the
    monitor's list and the shared objects unchanged; the web routes swallow it
    too and answer with a response (status 500) instead of raising. *)
Theorem publish_into_full_queue (sh : Shared) :
  length (button_queue sh) = button_queue_maxsize ->
  (∀ button_data,
     put button_queue_maxsize button_data (button_queue sh)
     = (button_queue sh, Raise Full))
  /\ (∀ stamp ih b rest,
        button_presses (button_monitor ih) = b :: rest ->
        forward_body stamp sh ih =
          (sh, {| button_monitor :=
                    {| last_press_times := last_press_times (button_monitor ih);
                       debounce_delay := debounce_delay (button_monitor ih);
                       button_presses := rest |};
                  last_state := last_state ih;
                  forwarding := forwarding ih |}))
  /\ (∀ b stamp, b ∈ [0%Z; 1%Z; 2%Z] ->
        press_button b stamp sh =
          (sh, {| status_code := 500; success := false;
                  echoed_button := None |}))
  /\ (∀ stamp,
        start_game stamp sh =
          (sh, {| status_code := 500; success := false;
                  echoed_button := None |})).
Proof.
  intros Hfull.
  assert (∀ d, put button_queue_maxsize d (button_queue sh)
               = (button_queue sh, Raise Full)) as Hput
    by (intros d; apply put_full; lia).
  split; [exact Hput|]. split; [|split].
  - intros stamp ih b rest Hb. unfold forward_body, get_button_press.
    rewrite Hb, Hput. cbn [fst]. by rewrite with_button_queue_same.
  - intros b stamp Hb. unfold press_button.
    rewrite bool_decide_eq_true_2 by done. cbn [negb]. by rewrite Hput.
  - intros stamp. unfold start_game. by rewrite Hput.
Qed.

Lemma publish_into_full_queue_witness :
  let sh := with_button_queue
              (replicate 50 {| button := 1; timestamp := "t" |}) Shared_init in
  press_button 2 "u" sh
  = (sh, {| status_code := 500; success := false; echoed_button := None |}).
Proof.
  intros sh.
  destruct (publish_into_full_queue sh) as (_ & _ & Hweb & _).
  - reflexivity.
  - apply Hweb. repeat constructor.
Defined.

(** ** The edge detector *)

Section EdgeDetector.
Variable button_index : Z.
Hypothesis button_index_valid : button_index ∈ [0%Z; 1%Z; 2%Z].

Local Abbreviation pol := (polarity_of button_index).
Local Abbreviation turn := (turn_of true button_index).
Local Abbreviation pressed := (with_press button_index).

(** The loop variable [last_state] starts at the idle level. *)
Lemma initial_last_state_idle :
  initial_last_state button_index = idle_level pol.
Proof.
  unfold initial_last_state, pol, polarity_of.
  by destruct (decide (button_index = 2%Z)).
Qed.

Lemma BUTTON_PINS_valid : is_Some (BUTTON_PINS !! button_index).
Proof.
  apply list_elem_of_In in button_index_valid. simpl in button_index_valid.
  destruct button_index_valid as [<- | [<- | [<- | []]]]; by eexists.
Qed.

(** One turn on the hardware: a press is recorded exactly on a transition
    into the active level later than [debounce_delay] after the stored
    time. *)
Lemma turn_true smp bm ls T :
  last_press_times bm !! button_index = Some T ->
  turn smp (bm, ls) =
    Return (if is_active pol (pin_level smp) && negb (is_active pol ls)
               && PrimFloat.ltb (debounce_delay bm) (PrimFloat.sub (now smp) T)
            then pressed (now smp) bm else bm,
            pin_level smp).
Proof.
  intros HT. unfold turn, turn_of, pol, polarity_of.
  destruct (decide (button_index = 2%Z));
    unfold poll_high, poll_low, register_press; rewrite HT;
    destruct (pin_level smp), ls; cbn [is_active negb andb]; try done;
    by destruct (PrimFloat.ltb (debounce_delay bm) (PrimFloat.sub (now smp) T)).
Qed.

Lemma emitted_true smp bm ls T :
  last_press_times bm !! button_index = Some T ->
  emitted turn smp (bm, ls) =
    is_active pol (pin_level smp) && negb (is_active pol ls)
    && PrimFloat.ltb (debounce_delay bm) (PrimFloat.sub (now smp) T).
Proof.
  intros HT. unfold emitted. rewrite (turn_true smp bm ls T HT).
  destruct (_ && _ && _); cbn [fst pressed button_presses].
  - rewrite length_app. simpl.
    destruct (Nat.eqb_spec (length (button_presses bm) + 1)
                           (length (button_presses bm))); [lia | done].
  - by rewrite Nat.eqb_refl.
Qed.

Lemma linked_head d T prev smp rest :
  linked d T prev (smp :: rest) ->
  PrimFloat.ltb d (PrimFloat.sub (now smp) T) = clear_of d prev (now smp).
Proof.
  intros [-> | [-> Hall]]; [done|]. cbn [clear_of].
  by apply Forall_cons in Hall as [Hsmp _].
Qed.

Lemma linked_tail d T prev smp rest (f : bool) :
  linked d T prev (smp :: rest) ->
  linked d (if f then now smp else T)
         (if f then Some (now smp) else prev) rest.
Proof.
  intros Hl. destruct f; [by left|].
  destruct Hl as [-> | [-> Hall]]; [by left|].
  right. split; [done|]. by apply Forall_cons in Hall as [_ Hrest].
Qed.

Lemma active_edge_cons l0 s0 rest i smp :
  rest !! i = Some smp ->
  active_edge pol l0 (s0 :: rest) (S i) = active_edge pol (pin_level s0) rest i.
Proof.
  intros Hi. unfold active_edge.
  replace ((s0 :: rest) !! S i) with (rest !! i) by done. rewrite Hi.
  f_equal. f_equal. f_equal. destruct i as [|j]; [done|].
  cbn [level_before].
  replace ((s0 :: rest) !! S j) with (rest !! j) by done.
  assert (j < length rest) as Hj by (apply lookup_lt_Some in Hi; lia).
  destruct (lookup_lt_is_Some_2 _ _ Hj) as [x Hx]. by rewrite Hx.
Qed.

Lemma last_event_before_cons prev (f0 : bool) flags s0 rest i :
  last_event_before prev (f0 :: flags) (s0 :: rest) (S i)
  = last_event_before (if f0 then Some (now s0) else prev) flags rest i.
Proof.
  induction i as [|i IH]; [by destruct f0|].
  change (last_event_before prev (f0 :: flags) (s0 :: rest) (S (S i)))
    with (match flags !! i, rest !! i with
          | Some true, Some smp => Some (now smp)
          | _, _ => last_event_before prev (f0 :: flags) (s0 :: rest) (S i)
          end).
  rewrite IH. reflexivity.
Qed.

(** The flags of the loop, sample by sample. *)
Lemma emissions_spec samples : ∀ bm ls T prev,
  last_press_times bm !! button_index = Some T ->
  linked (debounce_delay bm) T prev samples ->
  length (emissions turn samples (bm, ls)) = length samples
  /\ ∀ i smp, samples !! i = Some smp ->
       emissions turn samples (bm, ls) !! i =
         Some (active_edge pol ls samples i
               && clear_of (debounce_delay bm)
                    (last_event_before prev
                       (emissions turn samples (bm, ls)) samples i)
                    (now smp)).
Proof.
  induction samples as [|s0 rest IH]; intros bm ls T prev HT Hl.
  { split; [done|]. intros i smp Hi. by rewrite lookup_nil in Hi. }
  cbn [emissions]. rewrite (emitted_true s0 bm ls T HT).
  rewrite (turn_true s0 bm ls T HT).
  set (edge0 := is_active pol (pin_level s0) && negb (is_active pol ls)).
  set (f0 := edge0 && PrimFloat.ltb (debounce_delay bm) (PrimFloat.sub (now s0) T)).
  set (bm1 := if f0 then pressed (now s0) bm else bm).
  assert (debounce_delay bm1 = debounce_delay bm) as Hd
    by (subst bm1; by destruct f0).
  assert (last_press_times bm1 !! button_index
          = Some (if f0 then now s0 else T)) as HT1.
  { subst bm1. destruct f0; [|done]. cbn. by rewrite lookup_insert_eq. }
  pose proof (linked_tail _ _ _ _ _ f0 Hl) as Hl1.
  rewrite <- Hd in Hl1.
  destruct (IH bm1 (pin_level s0) _ _ HT1 Hl1) as [Hlen Hflags].
  split; [cbn [length]; by rewrite Hlen|].
  intros [|i] smp Hi.
  - injection Hi as <-. cbn [lookup list_lookup last_event_before].
    f_equal. unfold active_edge. cbn [lookup list_lookup level_before].
    subst f0 edge0. by rewrite (linked_head _ _ _ _ _ Hl).
  - pose proof (Hflags i smp Hi) as Hf. rewrite Hd in Hf.
    rewrite (active_edge_cons ls s0 rest i smp Hi), last_event_before_cons.
    exact Hf.
Qed.

(** The presses recorded by the loop are the debounced edges. *)
Lemma polling_presses samples : ∀ bm ls T prev,
  last_press_times bm !! button_index = Some T ->
  linked (debounce_delay bm) T prev samples ->
  button_presses (fst (polling turn samples (bm, ls))) =
    button_presses bm
    ++ replicate
         (length (debounce (debounce_delay bm) prev
                           (edge_times pol ls samples)))
         button_index.
Proof.
  induction samples as [|s0 rest IH]; intros bm ls T prev HT Hl.
  { cbn. by rewrite app_nil_r. }
  cbn [polling edge_times]. rewrite (turn_true s0 bm ls T HT).
  pose proof (linked_head _ _ _ _ _ Hl) as Hclear.
  set (edge0 := is_active pol (pin_level s0) && negb (is_active pol ls)).
  set (f0 := edge0 && PrimFloat.ltb (debounce_delay bm) (PrimFloat.sub (now s0) T)).
  set (bm1 := if f0 then pressed (now s0) bm else bm).
  assert (debounce_delay bm1 = debounce_delay bm) as Hd
    by (subst bm1; by destruct f0).
  assert (last_press_times bm1 !! button_index
          = Some (if f0 then now s0 else T)) as HT1.
  { subst bm1. destruct f0; [|done]. cbn. by rewrite lookup_insert_eq. }
  pose proof (linked_tail _ _ _ _ _ f0 Hl) as Hl1.
  rewrite <- Hd in Hl1.
  rewrite (IH bm1 (pin_level s0) _ _ HT1 Hl1), Hd.
  subst bm1 f0. destruct edge0; cbn [andb app debounce].
  - rewrite <- Hclear.
    destruct (PrimFloat.ltb (debounce_delay bm) (PrimFloat.sub (now s0) T)); [|done].
    cbn [pressed button_presses length replicate].
    by rewrite <- app_assoc.
  - done.
Qed.

Lemma monitor_button_polling samples bm :
  monitor_button true button_index samples bm =
    fst (polling turn samples (bm, idle_level pol)).
Proof.
  unfold monitor_button. destruct BUTTON_PINS_valid as [pin ->].
  by rewrite initial_last_state_idle.
Qed.
End EdgeDetector.

(** C4. The detector of one button, run on the hardware over any trace of
    samples, from a monitor whose stored time for the button is the initial 0
    and whose every clock reading passes the debounce test against that 0
    (readings of [time.time()] count seconds from 1970).  An interval is what
    the code measures: the float difference of two clock readings, compared
    with the float [debounce_delay].  The detector emits at a sample exactly
    when that sample is a transition into the active level (rising for button
    2, falling for buttons 0 and 1) and is strictly more than the debounce
    interval after the last emitted event, if any.  Hence the presses it
    records are the debounced edges; two edges no more than the interval
    apart give one event, and two edges more than the interval apart give
    two. *)
Theorem edge_detector_debounced
    (button_index : Z) (bm : ButtonMonitor) (samples : list Sample) :
  button_index ∈ [0%Z; 1%Z; 2%Z] ->
  last_press_times bm !! button_index = Some 0%float ->
  Forall (fun smp =>
            PrimFloat.ltb (debounce_delay bm) (PrimFloat.sub (now smp) 0)
            = true) samples ->
  let pol := polarity_of button_index in
  let d := debounce_delay bm in
  let flags := emissions (turn_of true button_index) samples
                         (bm, initial_last_state button_index) in
  let events := drop (length (button_presses bm))
                  (button_presses
                     (monitor_button true button_index samples bm)) in
  length flags = length samples
  /\ (∀ i smp, samples !! i = Some smp ->
        flags !! i =
          Some (active_edge pol (idle_level pol) samples i
                && clear_of d (last_event_before None flags samples i)
                            (now smp)))
  /\ button_presses (monitor_button true button_index samples bm) =
       button_presses bm
       ++ replicate
            (length (debounce d None (edge_times pol (idle_level pol) samples)))
            button_index
  /\ (∀ t1 t2, edge_times pol (idle_level pol) samples = [t1; t2] ->
        PrimFloat.ltb d (PrimFloat.sub t2 t1) = false ->
        events = [button_index])
  /\ (∀ t1 t2, edge_times pol (idle_level pol) samples = [t1; t2] ->
        PrimFloat.ltb d (PrimFloat.sub t2 t1) = true ->
        events = [button_index; button_index]).
Proof.
  intros Hvalid HT Hclock pol d flags events.
  assert (linked (debounce_delay bm) 0 None samples) as Hl
    by (right; split; [done | exact Hclock]).
  destruct (emissions_spec button_index samples bm
              (initial_last_state button_index) 0%float None HT Hl)
    as [Hlen Hflags].
  pose proof (polling_presses button_index samples bm
                (idle_level pol) 0%float None HT Hl) as Hpresses.
  rewrite <- (monitor_button_polling button_index Hvalid) in Hpresses.
  assert (∀ n, events = replicate n button_index <->
               replicate
                 (length (debounce d None
                            (edge_times pol (idle_level pol) samples)))
                 button_index = replicate n button_index) as Hev.
  { intros n. subst events. rewrite Hpresses, drop_app_length. done. }
  split; [exact Hlen|]. split.
  { intros i smp Hi. specialize (Hflags i smp Hi). subst flags pol d.
    rewrite (initial_last_state_idle button_index) in Hflags |- *.
    exact Hflags. }
  split; [exact Hpresses|]. split.
  - intros t1 t2 He Hnear. apply (Hev 1). rewrite He.
    cbn [debounce clear_of]. by rewrite Hnear.
  - intros t1 t2 He Hfar. apply (Hev 2). rewrite He.
    cbn [debounce clear_of]. by rewrite Hfar.
Qed.

(** Button 2 pressed, released, and pressed again an eighth of a second
    after the first press: one event. *)
Lemma edge_detector_debounced_witness :
  button_presses
    (monitor_button true 2
       [ {| now := 1000; pin_level := true |};
         {| now := 1000.0625; pin_level := false |};
         {| now := 1000.125; pin_level := true |} ]
       ButtonMonitor_init)
  = [2%Z].
Proof.
  destruct (edge_detector_debounced 2 ButtonMonitor_init
              [ {| now := 1000; pin_level := true |};
                {| now := 1000.0625; pin_level := false |};
                {| now := 1000.125; pin_level := true |} ])
    as (_ & _ & _ & Hnear & _).
  - repeat constructor.
  - reflexivity.
  - repeat (constructor; [reflexivity|]). constructor.
  - apply (Hnear 1000%float 1000.125%float); reflexivity.
Defined.

(** The same presses on an active-low button, half a second apart: two
    events; and a bounce an eighth of a second after an accepted press
    followed by a press half a second after the accepted one: the bounce is
    dropped, the later press is kept. *)
Example detector_two_events :
  button_presses
    (monitor_button true 0
       [ {| now := 1000; pin_level := false |};
         {| now := 1000.0625; pin_level := true |};
         {| now := 1000.5; pin_level := false |} ]
       ButtonMonitor_init)
  = [0%Z; 0%Z].
Proof. vm_compute. reflexivity. Qed.

Example detector_bounce_then_press :
  emissions (turn_of true 2)
    [ {| now := 1000; pin_level := true |};
      {| now := 1000.0625; pin_level := false |};
      {| now := 1000.125; pin_level := true |};
      {| now := 1000.1875; pin_level := false |};
      {| now := 1000.5; pin_level := true |} ]
    (ButtonMonitor_init, initial_last_state 2)
  = [true; false; false; false; true].
Proof. vm_compute. reflexivity. Qed.

(** Readings that print as 0.2 s apart.  The floats of 1700000000.0,
    1700000000.1 and 1700000000.2 (the last is 1700000000.2000000477), and
    the floats of 0.7, 0.8 and 0.9: in both traces the float difference of
    the two edges is more than the float of 0.2, and both presses are
    recorded, as the code does. *)
Example detector_epoch_readings :
  button_presses
    (monitor_button true 2
       [ {| now := 0x1.954fc40000000p+30; pin_level := true |};
         {| now := 0x1.954fc40066666p+30; pin_level := false |};
         {| now := 0x1.954fc400ccccdp+30; pin_level := true |} ]
       ButtonMonitor_init)
  = [2%Z; 2%Z].
Proof. vm_compute. reflexivity. Qed.

Example detector_tenths_readings :
  button_presses
    (monitor_button true 2
       [ {| now := 0x1.6666666666666p-1; pin_level := true |};
         {| now := 0x1.999999999999ap-1; pin_level := false |};
         {| now := 0x1.ccccccccccccdp-1; pin_level := true |} ]
       ButtonMonitor_init)
  = [2%Z; 2%Z].
Proof. vm_compute. reflexivity. Qed.

(** The test is strict.  An edge whose reading is exactly [debounce_delay]
    after the accepted one (0.25 and the float of 0.45) is dropped; one unit
    in the last place later it is kept. *)
Example detector_exact_interval :
  button_presses
    (monitor_button true 2
       [ {| now := 0.25; pin_level := true |};
         {| now := 0.3125; pin_level := false |};
         {| now := 0x1.ccccccccccccdp-2; pin_level := true |} ]
       ButtonMonitor_init)
  = [2%Z]
  /\ button_presses
       (monitor_button true 2
          [ {| now := 0.25; pin_level := true |};
            {| now := 0.3125; pin_level := false |};
            {| now := 0x1.ccccccccccccep-2; pin_level := true |} ]
          ButtonMonitor_init)
     = [2%Z; 2%Z].
Proof. vm_compute. split; reflexivity. Qed.

(** The stored time starts at 0: a clock reading within the debounce interval
    of 0 would not be accepted.  Readings of [time.time()] are far later. *)
Example detector_clock_near_zero :
  button_presses
    (monitor_button true 2 [ {| now := 0.125; pin_level := true |} ]
       ButtonMonitor_init)
  = [].
Proof. vm_compute. reflexivity. Qed.

(** Without the GPIO library the loop never samples. *)
Example detector_simulation_idle :
  monitor_button false 2
    [ {| now := 1000; pin_level := true |};
      {| now := 1300; pin_level := false |} ]
    ButtonMonitor_init
  = ButtonMonitor_init.
Proof. reflexivity. Qed.

(** ** The stop signal *)

Section StopSignal.

Lemma show_sequence_leds_aux (l : list Z) : ∀ acc : list LedCommand,
  fold_left (fun a led_index => a ++ [Flash led_index 600]) l acc
  = acc ++ map (fun led_index => Flash led_index 600) l.
Proof.
  induction l as [|x l IH]; intros acc; cbn [fold_left map].
  - by rewrite app_nil_r.
  - by rewrite IH, <- app_assoc.
Qed.

(** The playback flashes every entry of the sequence, in order. *)
Lemma show_sequence_leds c :
  leds (show_sequence c)
  = leds c ++ map (fun led_index => Flash led_index 600)
                  (sequence (game_logic c)).
Proof. apply show_sequence_leds_aux. Qed.
End StopSignal.

(** C3, the claim as stated fails for the polling loops and for the
    playback.  With the stop signal already set, the polling loop of button 2
    takes three further turns and records two presses; and a playback of a
    three-entry sequence flashes all three LEDs and opens the input phase. *)
Lemma polling_and_playback_ignore_stop :
  let sh := with_stop_event true Shared_init in
  stop_event sh = true
  /\ option_map
       (fun s => (stop_event (fst s), button_presses (button_monitor (snd s))))
       (input_exec true
          [ Poll 2 {| now := 1000; pin_level := true |};
            Poll 2 {| now := 1010; pin_level := false |};
            Poll 2 {| now := 1300; pin_level := true |} ]
          (sh, InputHandler_init))
     = Some (true, [2%Z; 2%Z])
  /\ option_map
       (fun s => (stop_event (fst s), leds (snd s),
                  state (game_logic (snd s))))
       (game_step Presenter
          (sh, {| game_logic := {| sequence := [0%Z; 1%Z; 2%Z];
                                   player_input := []; level := 3;
                                   state := SHOWING |};
                  db := []; leds := []; presenters := 1; running := true |}))
     = Some (true, [Flash 0 600; Flash 1 600; Flash 2 600], PLAYING).
Proof. vm_compute. repeat split; reflexivity. Qed.

(** C3, amended.  The driving loop of the game worker, the forwarding loop
    of the input worker and the liveness monitor test the stop signal at the
    head of every turn: a turn that finds it set runs no body and leaves the
    loop (the game worker through its LED cleanup), after which no thread of
    that process takes a turn.  The polling loops and the playback do not
    test it: while their process runs, a polling turn and a playback proceed
    the same whether the signal is set or not, the playback flashing the
    whole sequence and setting the phase PLAYING. *)
Theorem stop_signal_in_the_loops :
  (∀ entropy sh c, stop_event sh = true ->
     run_step entropy sh c =
       (sh, {| game_logic := game_logic c; db := db c;
               leds := leds c ++ [Cleanup];
               presenters := presenters c; running := false |}))
  /\ (∀ entropy sh c, running c = false ->
        game_step (DrivingLoop entropy) (sh, c) = None
        /\ game_step Presenter (sh, c) = None)
  /\ (∀ stamp sh ih, stop_event sh = true ->
        forward_step stamp sh ih =
          (sh, {| button_monitor := button_monitor ih;
                  last_state := last_state ih; forwarding := false |}))
  /\ (∀ RASPBERRY_PI stamp b smp sh ih, forwarding ih = false ->
        input_step RASPBERRY_PI (Forward stamp) (sh, ih) = None
        /\ input_step RASPBERRY_PI (Poll b smp) (sh, ih) = None)
  /\ (∀ alive sh, stop_event sh = true -> monitor_step alive sh = (sh, false))
  /\ (∀ RASPBERRY_PI b smp sh ih, forwarding ih = true ->
        input_step RASPBERRY_PI (Poll b smp) (sh, ih) =
          option_map (fun ih' => (sh, ih'))
                     (poll_step RASPBERRY_PI b smp ih))
  /\ (∀ sh c, running c = true -> 0 < presenters c ->
        game_step Presenter (sh, c) = Some (sh, show_sequence c)
        /\ leds (show_sequence c) =
             leds c ++ map (fun led_index => Flash led_index 600)
                           (sequence (game_logic c))
        /\ state (game_logic (show_sequence c)) = PLAYING).
Proof.
  split; [|split; [|split; [|split; [|split; [|split]]]]].
  - intros entropy sh c H. unfold run_step. by rewrite H.
  - intros entropy sh c H. cbn. by rewrite H.
  - intros stamp sh ih H. unfold forward_step. by rewrite H.
  - intros rpi stamp b smp sh ih H. cbn. by rewrite H.
  - intros alive sh H. unfold monitor_step. by rewrite H.
  - intros rpi b smp sh ih H. cbn [input_step]. rewrite H.
    by destruct (poll_step _ _ _ _).
  - intros sh c H Hp. split; [|split].
    + cbn [game_step]. rewrite H. cbn [andb].
      by rewrite bool_decide_eq_true_2.
    + apply show_sequence_leds.
    + done.
Qed.

Lemma stop_signal_in_the_loops_witness :
  run_step 4 (with_stop_event true Shared_init) Controller_init
  = (with_stop_event true Shared_init,
     {| game_logic := GameLogic_init; db := []; leds := [Cleanup];
        presenters := 0; running := false |})
  /\ monitor_step [true; true; true] (with_stop_event true Shared_init)
     = (with_stop_event true Shared_init, false).
Proof.
  destruct stop_signal_in_the_loops as (Hrun & _ & _ & _ & Hmon & _).
  split; [apply (Hrun 4%Z (with_stop_event true Shared_init) Controller_init)
         | apply Hmon]; reflexivity.
Defined.

(** * Further properties of the code *)

(** ** [LEDController] *)

Section LEDControllerFacts.
Implicit Types (lc : LEDController) (rpi high : bool) (i pin : Z).

Lemma LED_PINS_cases i pin :
  LED_PINS !! i = Some pin ->
  (i = 0 /\ pin = 22)%Z \/ (i = 1 /\ pin = 23)%Z \/ (i = 2 /\ pin = 24)%Z.
Proof.
  unfold LED_PINS. intros H.
  repeat (apply lookup_insert_Some in H as [[<- <-] | [_ H]]; [tauto|]).
  apply lookup_singleton_Some in H as [<- <-]. tauto.
Qed.

Lemma LED_PINS_keys_lookup i :
  i ∈ LED_PINS_keys <-> is_Some (LED_PINS !! i).
Proof.
  unfold LED_PINS_keys. split.
  - intros Hi. apply list_elem_of_In in Hi. simpl in Hi.
    destruct Hi as [<- | [<- | [<- | []]]]; by eexists.
  - intros [pin Hp].
    destruct (LED_PINS_cases i pin Hp) as [[-> _] | [[-> _] | [-> _]]];
      repeat constructor.
Qed.

Lemma led_set_valid rpi high i pin lc :
  LED_PINS !! i = Some pin ->
  led_set rpi high i lc =
    {| led_states := <[i := high]> (led_states lc);
       gpio_calls := if rpi then gpio_calls lc ++ [GPIO_output pin high]
                     else gpio_calls lc |}.
Proof. intros H. unfold led_set. by rewrite H. Qed.

Lemma led_set_invalid rpi high i lc :
  i ∉ LED_PINS_keys -> led_set rpi high i lc = lc.
Proof.
  intros Hi. unfold led_set.
  destruct (LED_PINS !! i) as [pin|] eqn:Hp; [|done].
  exfalso. apply Hi, LED_PINS_keys_lookup. by eexists.
Qed.

(** The recorded states after setting one LED. *)
Lemma led_set_states rpi high i j lc :
  led_states (led_set rpi high i lc) !! j =
    if decide (i = j /\ i ∈ LED_PINS_keys) then Some high
    else led_states lc !! j.
Proof.
  destruct (decide (i ∈ LED_PINS_keys)) as [Hi|Hi].
  - destruct (proj1 (LED_PINS_keys_lookup i) Hi) as [pin Hp].
    rewrite (led_set_valid _ _ _ _ _ Hp). cbn [led_states].
    destruct (decide (i = j)) as [->|Hne].
    + rewrite lookup_insert_eq. by rewrite decide_True.
    + rewrite lookup_insert_ne by done. rewrite decide_False; [done|tauto].
  - rewrite led_set_invalid by done. rewrite decide_False; [done|tauto].
Qed.

Lemma pin_output_app_output calls p v pin :
  pin_output (calls ++ [GPIO_output p v]) pin =
    if decide (p = pin) then Some v else pin_output calls pin.
Proof.
  induction calls as [|call rest IH]; [done|].
  cbn [app pin_output]. rewrite IH. by destruct (decide (p = pin)).
Qed.

Lemma turn_off_all_unfold rpi lc :
  turn_off_all rpi lc =
    turn_off rpi 2 (turn_off rpi 1 (turn_off rpi 0 lc)).
Proof. reflexivity. Qed.

Lemma celebration_round_unfold rpi lc :
  celebration_round rpi lc =
    flash rpi 2 (flash rpi 1 (flash rpi 0 lc)).
Proof. reflexivity. Qed.

Lemma game_over_round_unfold rpi lc :
  game_over_round rpi lc =
    turn_off_all rpi (turn_on rpi 2 (turn_on rpi 1 (turn_on rpi 0 lc))).
Proof. reflexivity. Qed.

Lemma led_set_states_same rpi high i lc :
  i ∈ LED_PINS_keys -> led_states (led_set rpi high i lc) !! i = Some high.
Proof. intros Hi. rewrite led_set_states. by rewrite decide_True. Qed.

Lemma led_set_states_other rpi high i j lc :
  i ≠ j -> led_states (led_set rpi high i lc) !! j = led_states lc !! j.
Proof. intros Hne. rewrite led_set_states. rewrite decide_False; tauto. Qed.

Lemma turn_off_all_all_off rpi lc : all_off (turn_off_all rpi lc).
Proof.
  intros j Hj. rewrite turn_off_all_unfold. unfold turn_off.
  apply list_elem_of_In in Hj. simpl in Hj.
  destruct Hj as [<- | [<- | [<- | []]]];
    repeat first [ rewrite led_set_states_same by repeat constructor
                 | rewrite led_set_states_other by done ];
    reflexivity.
Qed.

Lemma celebration_round_all_off rpi lc : all_off (celebration_round rpi lc).
Proof.
  intros j Hj. rewrite celebration_round_unfold. unfold flash, turn_off, turn_on.
  apply list_elem_of_In in Hj. simpl in Hj.
  destruct Hj as [<- | [<- | [<- | []]]];
    repeat first [ rewrite led_set_states_same by repeat constructor
                 | rewrite led_set_states_other by done ];
    reflexivity.
Qed.
Lemma celebration_sequence_unfold rpi lc :
  celebration_sequence rpi lc =
    celebration_round rpi (celebration_round rpi (celebration_round rpi lc)).
Proof. reflexivity. Qed.

Lemma game_over_sequence_unfold rpi lc :
  game_over_sequence rpi lc =
    game_over_round rpi (game_over_round rpi (game_over_round rpi
      (game_over_round rpi (game_over_round rpi lc)))).
Proof. reflexivity. Qed.

Lemma game_over_round_all_off rpi lc : all_off (game_over_round rpi lc).
Proof. rewrite game_over_round_unfold. apply turn_off_all_all_off. Qed.

(** Setting an LED on the hardware keeps states and pins in agreement. *)
Lemma led_set_mirrors high i lc :
  mirrors_pins lc -> mirrors_pins (led_set true high i lc).
Proof.
  intros Hm j pin_j Hj. destruct (Hm j pin_j Hj) as [Hsome Hout].
  destruct (LED_PINS !! i) as [pin_i|] eqn:Hi.
  2: { unfold led_set. by rewrite Hi. }
  rewrite (led_set_valid _ _ _ _ _ Hi). cbn [led_states gpio_calls].
  rewrite pin_output_app_output.
  destruct (decide (i = j)) as [->|Hne].
  - rewrite lookup_insert_eq. assert (pin_i = pin_j) as -> by congruence.
    by rewrite decide_True.
  - rewrite lookup_insert_ne by done. rewrite decide_False; [done|].
    intros ->.
    destruct (LED_PINS_cases _ _ Hi) as [[-> Hp] | [[-> Hp] | [-> Hp]]];
      destruct (LED_PINS_cases _ _ Hj) as [[-> Hq] | [[-> Hq] | [-> Hq]]];
      congruence.
Qed.

Lemma led_set_same_states rpi rpi' high i lc lc' :
  led_states lc = led_states lc' ->
  led_states (led_set rpi high i lc) = led_states (led_set rpi' high i lc').
Proof.
  intros Hs. unfold led_set. destruct (LED_PINS !! i); cbn; congruence.
Qed.

Lemma led_set_silent high i lc :
  gpio_calls (led_set false high i lc) = gpio_calls lc.
Proof. unfold led_set. by destruct (LED_PINS !! i). Qed.
End LEDControllerFacts.

(** X1. An index that is not a key of [LED_PINS] is refused by the guard of
    [turn_on] and [turn_off]: neither they nor [flash] change the recorded
    states or write to a pin. *)
Theorem led_unknown_index_ignored (RASPBERRY_PI : bool) (led_index : Z)
    (lc : LEDController) :
  led_index ∉ LED_PINS_keys ->
  turn_on RASPBERRY_PI led_index lc = lc
  /\ turn_off RASPBERRY_PI led_index lc = lc
  /\ flash RASPBERRY_PI led_index lc = lc.
Proof.
  intros Hi. unfold flash, turn_on, turn_off.
  by rewrite !led_set_invalid.
Qed.

Lemma led_unknown_index_ignored_witness :
  flash true 7 (LEDController_init true) = LEDController_init true.
Proof.
  apply (led_unknown_index_ignored true 7 (LEDController_init true)).
  intros Hi. apply list_elem_of_In in Hi. simpl in Hi.
  destruct Hi as [? | [? | [? | []]]]; discriminate.
Defined.

(** X2. Whatever the LEDs showed before, [turn_off_all], the celebration
    pattern, the game-over pattern and [cleanup] leave every LED recorded as
    off, and [flash] leaves the flashed LED off. *)
Theorem led_patterns_end_all_off (RASPBERRY_PI : bool) (lc : LEDController) :
  all_off (turn_off_all RASPBERRY_PI lc)
  /\ all_off (celebration_sequence RASPBERRY_PI lc)
  /\ all_off (game_over_sequence RASPBERRY_PI lc)
  /\ all_off (cleanup RASPBERRY_PI lc)
  /\ (∀ led_index, led_index ∈ LED_PINS_keys ->
        led_states (flash RASPBERRY_PI led_index lc) !! led_index
        = Some false).
Proof.
  split; [apply turn_off_all_all_off|].
  split; [apply celebration_round_all_off|].
  split; [apply game_over_round_all_off|].
  split; [apply turn_off_all_all_off|].
  intros i Hi. unfold flash, turn_off. by apply led_set_states_same.
Qed.

(** X3. On the hardware the recorded state of each LED is always the level
    last written to its pin: this holds after [__init__] and is kept by
    [turn_on], [turn_off], [flash], [turn_off_all] and both patterns. *)
Theorem led_states_mirror_pins :
  mirrors_pins (LEDController_init true)
  /\ ∀ lc, mirrors_pins lc ->
       (∀ led_index, mirrors_pins (turn_on true led_index lc))
       /\ (∀ led_index, mirrors_pins (turn_off true led_index lc))
       /\ (∀ led_index, mirrors_pins (flash true led_index lc))
       /\ mirrors_pins (turn_off_all true lc)
       /\ mirrors_pins (celebration_sequence true lc)
       /\ mirrors_pins (game_over_sequence true lc).
Proof.
  split.
  - intros j pin Hj.
    destruct (LED_PINS_cases _ _ Hj) as [[-> ->] | [[-> ->] | [-> ->]]];
      (split; [by eexists | reflexivity]).
  - intros lc Hm.
    split; [intros i; by apply led_set_mirrors|].
    split; [intros i; by apply led_set_mirrors|].
    split; [intros i; unfold flash, turn_on, turn_off;
            by repeat apply led_set_mirrors|].
    split; [rewrite turn_off_all_unfold; unfold turn_off;
            by repeat apply led_set_mirrors|].
    split.
    + rewrite celebration_sequence_unfold, !celebration_round_unfold.
      unfold flash, turn_on, turn_off.
      by repeat apply led_set_mirrors.
    + rewrite game_over_sequence_unfold, !game_over_round_unfold,
        !turn_off_all_unfold.
      unfold turn_on, turn_off. by repeat apply led_set_mirrors.
Qed.

Lemma led_states_mirror_pins_witness :
  mirrors_pins (game_over_sequence true (turn_on true 1 (LEDController_init true))).
Proof.
  destruct led_states_mirror_pins as [Hinit Hkeep].
  destruct (Hkeep (LEDController_init true) Hinit) as (Hon & _).
  destruct (Hkeep _ (Hon 1%Z)) as (_ & _ & _ & _ & _ & Hgo).
  exact Hgo.
Defined.

(** X4. Without the GPIO library no operation of the controller makes a GPIO
    call, and the recorded states evolve exactly as they do on the hardware. *)
Theorem led_simulation_mode (lc lc' : LEDController) :
  led_states lc = led_states lc' ->
  (∀ i, gpio_calls (turn_on false i lc) = gpio_calls lc
        /\ led_states (turn_on false i lc) = led_states (turn_on true i lc'))
  /\ (∀ i, gpio_calls (turn_off false i lc) = gpio_calls lc
        /\ led_states (turn_off false i lc) = led_states (turn_off true i lc'))
  /\ (∀ i, gpio_calls (flash false i lc) = gpio_calls lc
        /\ led_states (flash false i lc) = led_states (flash true i lc'))
  /\ (gpio_calls (turn_off_all false lc) = gpio_calls lc
      /\ led_states (turn_off_all false lc) = led_states (turn_off_all true lc'))
  /\ (gpio_calls (celebration_sequence false lc) = gpio_calls lc
      /\ led_states (celebration_sequence false lc)
         = led_states (celebration_sequence true lc'))
  /\ (gpio_calls (game_over_sequence false lc) = gpio_calls lc
      /\ led_states (game_over_sequence false lc)
         = led_states (game_over_sequence true lc'))
  /\ (gpio_calls (cleanup false lc) = gpio_calls lc
      /\ led_states (cleanup false lc) = led_states (cleanup true lc')).
Proof.
  intros Hs.
  unfold cleanup.
  rewrite game_over_sequence_unfold, celebration_sequence_unfold,
    !game_over_sequence_unfold, !celebration_sequence_unfold,
    !game_over_round_unfold, !celebration_round_unfold, !turn_off_all_unfold.
  unfold flash, turn_on, turn_off. cbn [gpio_calls led_states].
  repeat split; intros;
    first [ by rewrite !led_set_silent
          | by repeat apply led_set_same_states ].
Qed.

Lemma led_simulation_mode_witness :
  gpio_calls (game_over_sequence false (LEDController_init false)) = []
  /\ led_states (game_over_sequence false (LEDController_init false))
     = led_states (game_over_sequence true (LEDController_init true)).
Proof.
  destruct (led_simulation_mode (LEDController_init false)
              (LEDController_init true)) as (_ & _ & _ & _ & _ & Hgo & _).
  - reflexivity.
  - exact Hgo.
Defined.

(** ** Rounds of the game *)

Section RoundFacts.
Implicit Types (sh : Shared) (c : Controller) (g : GameLogic).

Lemma on_button_win_level entropy b sh c g1 :
  state (game_logic c) = PLAYING ->
  check_input b (game_logic c) = (g1, Return WIN_LEVEL) ->
  on_button entropy b sh c =
    (with_score (c_int (score sh + 10)) sh,
     {| game_logic := next_level entropy g1; db := db c;
        leds := (leds c ++ [Flash b 300]) ++ [CelebrationSequence];
        presenters := S (presenters c); running := running c |}).
Proof. intros Hst Hchk. unfold on_button. by rewrite Hst, Hchk. Qed.

Lemma on_button_correct entropy b sh c g1 :
  state (game_logic c) = PLAYING ->
  check_input b (game_logic c) = (g1, Return CORRECT) ->
  on_button entropy b sh c =
    (sh, {| game_logic := g1; db := db c; leds := leds c ++ [Flash b 300];
            presenters := presenters c; running := running c |}).
Proof. intros Hst Hchk. unfold on_button. by rewrite Hst, Hchk. Qed.

(** [check_input] on the expected button. *)
Lemma check_input_expected g b :
  sequence g !! length (player_input g) = Some b ->
  check_input b g =
    if (S (length (player_input g)) =? length (sequence g))%nat then
      ({| sequence := sequence g; player_input := [];
          level := level g; state := WIN |}, Return WIN_LEVEL)
    else
      ({| sequence := sequence g; player_input := player_input g ++ [b];
          level := level g; state := state g |}, Return CORRECT).
Proof.
  intros Hb. rewrite (check_input_some g b b Hb).
  by rewrite Z.eqb_refl.
Qed.

Lemma run_step_press entropy sh c button_data q :
  stop_event sh = false ->
  button_queue sh = button_data :: q ->
  run_step entropy sh c =
    (let s1 := on_button entropy (button button_data)
                         (with_button_queue q sh) c in
     (publish_state (fst s1) (snd s1), snd s1)).
Proof.
  intros Hstop Hq. unfold run_step. rewrite Hstop.
  by apply run_body_press.
Qed.
(** The turn that completes the sequence. *)
Lemma run_step_win_level entropy sh c button_data q g1 :
  stop_event sh = false ->
  button_queue sh = button_data :: q ->
  state (game_logic c) = PLAYING ->
  check_input (button button_data) (game_logic c) = (g1, Return WIN_LEVEL) ->
  score (fst (run_step entropy sh c)) = c_int (score sh + 10)
  /\ high_score (fst (run_step entropy sh c)) = high_score sh
  /\ game_active (fst (run_step entropy sh c)) = game_active sh
  /\ button_queue (fst (run_step entropy sh c)) = q
  /\ game_logic (snd (run_step entropy sh c)) =
       {| sequence := sequence (game_logic c) ++ [randint 0 2 entropy];
          player_input := [];
          level := (level (game_logic c) + 1)%Z;
          state := SHOWING |}
  /\ db (snd (run_step entropy sh c)) = db c
  /\ presenters (snd (run_step entropy sh c)) = S (presenters c).
Proof.
  intros Hstop Hq Hst Hchk.
  rewrite (run_step_press _ _ _ _ _ Hstop Hq).
  rewrite (on_button_win_level _ _ _ _ g1 Hst Hchk). cbv zeta.
  destruct (check_input_sequence (game_logic c) (button button_data))
    as [Hseq Hlvl].
  rewrite Hchk in Hseq, Hlvl. cbn [fst] in Hseq, Hlvl.
  repeat split.
  unfold next_level, add_to_sequence. cbn. by rewrite Hseq, Hlvl.
Qed.
End RoundFacts.

(** X5. A turn of the driving loop whose [check_input] answers WIN_LEVEL
    adds 10 to the score (stored as a C int), extends the sequence by one
    drawn entry through [next_level], starts one playback thread, and leaves
    the high score, the stored results and [game_active] as they were. *)
Theorem win_level_turn
    (entropy : Z) (sh : Shared) (c : Controller)
    (button_data : ButtonData) (q : list ButtonData) (g1 : GameLogic) :
  stop_event sh = false ->
  button_queue sh = button_data :: q ->
  state (game_logic c) = PLAYING ->
  check_input (button button_data) (game_logic c) = (g1, Return WIN_LEVEL) ->
  let s' := run_step entropy sh c in
  score (fst s') = c_int (score sh + 10)
  /\ high_score (fst s') = high_score sh
  /\ game_active (fst s') = game_active sh
  /\ game_logic (snd s') =
       {| sequence := sequence (game_logic c) ++ [randint 0 2 entropy];
          player_input := [];
          level := (level (game_logic c) + 1)%Z;
          state := SHOWING |}
  /\ db (snd s') = db c
  /\ presenters (snd s') = S (presenters c).
Proof.
  intros Hstop Hq Hst Hchk s'. subst s'.
  destruct (run_step_win_level entropy sh c button_data q g1 Hstop Hq Hst Hchk)
    as (H1 & H2 & H3 & _ & H5 & H6 & H7).
  done.
Qed.

Lemma win_level_turn_witness :
  let sh := {| button_queue := [ {| button := 1; timestamp := "t" |} ];
               web_queue := []; score := 0; high_score := 0;
               stop_event := false; game_active := true |} in
  let c := {| game_logic := {| sequence := [1%Z]; player_input := [];
                               level := 1; state := PLAYING |};
              db := []; leds := []; presenters := 0; running := true |} in
  score (fst (run_step 2 sh c)) = 10%Z
  /\ sequence (game_logic (snd (run_step 2 sh c))) = [1%Z; 2%Z].
Proof.
  intros sh c.
  destruct (win_level_turn 2 sh c {| button := 1; timestamp := "t" |} []
              {| sequence := [1%Z]; player_input := [];
                 level := 1; state := WIN |})
    as (Hsc & _ & _ & Hg & _);
    [reflexivity | reflexivity | reflexivity | reflexivity |].
  split; [exact Hsc | by rewrite Hg].
Defined.

(** X6. Repeating the sequence wins the level.  In phase PLAYING, when the
    presses waiting in the queue are exactly the entries of the sequence that
    the player has not entered yet, one turn of the driving loop per press
    empties the queue, adds 10 to the score and leaves the game in SHOWING
    with the old sequence extended by one drawn entry and the level raised
    by one; the high score is untouched. *)
Theorem replaying_sequence_wins (entropies : list Z) :
  ∀ (sh : Shared) (c : Controller),
  stop_event sh = false ->
  running c = true ->
  state (game_logic c) = PLAYING ->
  player_input (game_logic c) ++ map button (button_queue sh)
    = sequence (game_logic c) ->
  button_queue sh ≠ [] ->
  length entropies = length (button_queue sh) ->
  ∃ s' e,
    game_exec (map DrivingLoop entropies) (sh, c) = Some s'
    /\ last entropies = Some e
    /\ button_queue (fst s') = []
    /\ score (fst s') = c_int (score sh + 10)
    /\ high_score (fst s') = high_score sh
    /\ game_logic (snd s') =
         {| sequence := sequence (game_logic c) ++ [randint 0 2 e];
            player_input := [];
            level := (level (game_logic c) + 1)%Z;
            state := SHOWING |}.
Proof.
  induction entropies as [|e es IH]; intros sh c Hstop Hrun Hst Hseq Hq Hlen.
  { destruct (button_queue sh); [done | discriminate]. }
  destruct (button_queue sh) as [|d q] eqn:Hqueue; [done|].
  cbn [map game_exec game_step]. rewrite Hrun.
  assert (sequence (game_logic c) !! length (player_input (game_logic c))
          = Some (button d)) as Hexp.
  { rewrite <- Hseq. rewrite lookup_app_r by lia.
    by rewrite Nat.sub_diag. }
  assert (length (sequence (game_logic c))
          = length (player_input (game_logic c)) + S (length q)) as Hl.
  { rewrite <- Hseq at 1. rewrite length_app. cbn [map length].
    by rewrite length_map. }
  pose proof (check_input_expected _ _ Hexp) as Hchk.
  destruct q as [|d2 q'].
  - (* the last press *)
    destruct es; [|discriminate].
    destruct (Nat.eqb_spec (S (length (player_input (game_logic c))))
                           (length (sequence (game_logic c))));
      [|cbn [length] in Hl; lia].
    destruct (run_step_win_level e sh c d [] _ Hstop Hqueue Hst Hchk)
      as (H1 & H2 & _ & H4 & H5 & _).
    exists (run_step e sh c), e. cbn [game_exec map]. by repeat split.
  - (* a press short of the end *)
    destruct (Nat.eqb_spec (S (length (player_input (game_logic c))))
                           (length (sequence (game_logic c))));
      [cbn [length] in Hl; lia|].
    rewrite (run_step_press _ _ _ _ _ Hstop Hqueue).
    rewrite (on_button_correct _ _ _ _ _ Hst Hchk). cbv zeta. cbn [fst snd].
    match goal with
    | |- context [game_exec _ (?sh1, ?c1)] =>
        destruct (IH sh1 c1) as (s' & e' & Hex & Hlast & Hq' & Hsc & Hhs & Hg)
    end.
    + exact Hstop.
    + exact Hrun.
    + cbn. exact Hst.
    + cbn. rewrite <- app_assoc. exact Hseq.
    + done.
    + cbn in Hlen |- *. lia.
    + exists s', e'. split; [exact Hex|]. split.
      { destruct es; [discriminate Hlen|]. exact Hlast. }
      split; [exact Hq'|]. split; [exact Hsc|]. split; [exact Hhs|].
      exact Hg.
Qed.

Lemma replaying_sequence_wins_witness :
  let sh := {| button_queue := [ {| button := 1; timestamp := "a" |};
                                 {| button := 2; timestamp := "b" |} ];
               web_queue := []; score := 10; high_score := 0;
               stop_event := false; game_active := true |} in
  let c := {| game_logic := {| sequence := [1%Z; 2%Z]; player_input := [];
                               level := 2; state := PLAYING |};
              db := []; leds := []; presenters := 0; running := true |} in
  ∃ s' e, game_exec (map DrivingLoop [5%Z; 3%Z]) (sh, c) = Some s'
          /\ last [5%Z; 3%Z] = Some e
          /\ button_queue (fst s') = []
          /\ score (fst s') = c_int (10 + 10)
          /\ high_score (fst s') = 0%Z
          /\ game_logic (snd s') =
               {| sequence := [1%Z; 2%Z] ++ [randint 0 2 e];
                  player_input := []; level := (2 + 1)%Z; state := SHOWING |}.
Proof.
  intros sh c.
  apply (replaying_sequence_wins [5%Z; 3%Z] sh c);
    [reflexivity | reflexivity | reflexivity | reflexivity | discriminate
    | reflexivity].
Defined.

(** ** What every reachable state of the game worker satisfies *)

Section Accounts.
Implicit Types (sh : Shared) (c : Controller) (g : GameLogic).

Lemma c_int_0 : c_int 0 = 0%Z.
Proof. reflexivity. Qed.

(** Adding to a stored C int and storing again is adding before storing. *)
Lemma c_int_add_l x y : c_int (c_int x + y) = c_int (x + y).
Proof.
  unfold c_int. f_equal.
  replace ((x + 2 ^ 31) `mod` 2 ^ 32 - 2 ^ 31 + y + 2 ^ 31)%Z
    with ((x + 2 ^ 31) `mod` 2 ^ 32 + y)%Z by lia.
  rewrite Zplus_mod_idemp_l. f_equal. lia.
Qed.

Lemma best_stored_snoc rows sc lv :
  best_stored (rows ++ [(sc, lv)]) = Z.max (best_stored rows) sc.
Proof.
  unfold best_stored. rewrite map_app, foldr_app. cbn [map foldr fst].
  generalize (map fst rows). intros l.
  induction l as [|x l IH]; cbn [foldr]; lia.
Qed.

Lemma best_stored_nonneg rows : (0 <= best_stored rows)%Z.
Proof.
  unfold best_stored. induction (map fst rows) as [|x l IH]; cbn [foldr]; lia.
Qed.

Lemma game_accounts_queues sh sh' c :
  score sh' = score sh -> game_active sh' = game_active sh ->
  high_score sh' = high_score sh ->
  length (button_queue sh') <= button_queue_maxsize ->
  length (web_queue sh') <= web_queue_maxsize ->
  game_accounts (sh, c) -> game_accounts (sh', c).
Proof.
  intros Hs Ha Hh Hb Hw (H1 & H2 & _ & _ & H5 & H6 & H7).
  unfold game_accounts. cbn [fst snd] in *.
  rewrite Hs, Ha, Hh. done.
Qed.

Lemma game_accounts_publish_state sh c :
  game_accounts (sh, c) -> game_accounts (publish_state sh c, c).
Proof.
  intros Hacc. apply (game_accounts_queues sh); try done.
  - by destruct Hacc as (_ & _ & Hb & _).
  - cbn [publish_state with_web_queue web_queue].
    apply put_bounded. by destruct Hacc as (_ & _ & _ & Hw & _).
Qed.

Lemma game_accounts_on_button entropy b sh c :
  game_inv (sh, c) -> game_accounts (sh, c) ->
  game_accounts (on_button entropy b sh c).
Proof.
  intros [Hlvl Hst] (Hsc & Hact & Hbq & Hwq & Hhs & Hseq & Hdb).
  cbn [fst snd] in *. unfold round_score in Hsc.
  destruct (state (game_logic c)) eqn:Hphase; try done.
  - (* WAITING: a new game *)
    rewrite on_button_waiting by done.
    unfold game_accounts, round_score. cbn.
    repeat split; try done.
    apply Forall_singleton, randint_0_2.
  - (* SHOWING: ignored *)
    rewrite on_button_ignored by congruence.
    unfold game_accounts, round_score. cbn [fst snd]. by rewrite Hphase.
  - (* PLAYING *)
    destruct Hst as [Hlt Hpres].
    destruct (lookup_lt_is_Some_2 _ _ Hlt) as [y Hy].
    pose proof (check_input_some _ b y Hy) as Hchk.
    assert (1 <= level (game_logic c))%Z as Hlevel
      by (rewrite Hlvl; lia).
    destruct (negb (b =? y)%Z).
    { (* GAME_OVER *)
      rewrite (on_button_game_over _ _ _ _ _ Hphase Hchk). cbv zeta.
      set (sh1 := if (score sh >? high_score sh)%Z
                  then with_high_score (score sh) sh else sh).
      assert (score sh1 = score sh /\ button_queue sh1 = button_queue sh
              /\ web_queue sh1 = web_queue sh
              /\ high_score sh1 = Z.max (high_score sh) (score sh))
        as (Hs1 & Hb1 & Hw1 & Hh1).
      { subst sh1. destruct (Z.gtb_spec (score sh) (high_score sh));
          cbn; repeat split; lia. }
      unfold game_accounts, round_score.
      cbn [fst snd game_logic db reset state sequence level
           with_game_active with_score score game_active button_queue
           web_queue high_score].
      rewrite best_stored_snoc, <- Hhs, Hs1, Hb1, Hw1, Hh1.
      repeat split; try done.
      apply Forall_app. split; [done|]. by apply Forall_singleton. }
    destruct (S (length (player_input (game_logic c)))
              =? length (sequence (game_logic c)))%nat.
    + (* WIN_LEVEL *)
      rewrite (on_button_win_level _ _ _ _ _ Hphase Hchk).
      unfold game_accounts, round_score. cbn.
      repeat split; try done.
      * rewrite Hsc, c_int_add_l. f_equal. lia.
      * apply Forall_app. split; [done|].
        apply Forall_singleton, randint_0_2.
    + (* CORRECT *)
      rewrite (on_button_correct _ _ _ _ _ Hphase Hchk).
      unfold game_accounts, round_score. cbn [fst snd game_logic state level
        sequence db]. by rewrite Hphase.
Qed.

Lemma game_accounts_step a s s' :
  game_inv s -> game_accounts s -> game_step a s = Some s' ->
  game_accounts s'.
Proof.
  destruct s as [sh c]. intros Hinv Hacc.
  pose proof Hacc as (_ & _ & Hb & Hw & _). cbn [fst] in Hb, Hw.
  destruct a as [entropy| |d| |]; cbn [game_step].
  - destruct (running c); [|done]. intros [= <-].
    unfold run_step. destruct (stop_event sh); [exact Hacc|].
    unfold run_body.
    destruct (button_queue sh) as [|d q] eqn:Hq; cbn [get].
    + by apply game_accounts_publish_state.
    + assert (game_accounts (with_button_queue q sh, c)) as Hacc1.
      { apply (game_accounts_queues sh); try done.
        cbn in Hb |- *. lia. }
      pose proof (game_accounts_on_button entropy (button d) _ _
                    (game_inv_shared _ _ _ Hinv) Hacc1) as H.
      destruct (on_button _ _ _ _) as [sh1 c1].
      by apply game_accounts_publish_state.
  - destruct (running c); [|done]. cbn [andb].
    case_bool_decide as Hpos; [|done]. intros [= <-].
    destruct Hinv as [_ Hst]. cbn [snd] in Hst.
    destruct Hacc as (Hsc & Hact & _ & _ & Hhs & Hseq & Hdb).
    cbn [fst snd] in *. unfold round_score in Hsc.
    destruct (state (game_logic c)) eqn:Hphase; try done;
      try (destruct Hst as (_ & _ & Hz) || destruct Hst as (_ & Hz); lia).
  - intros [= <-]. apply (game_accounts_queues sh); try done.
    cbn [with_button_queue button_queue]. by apply put_bounded.
  - intros [= <-]. apply (game_accounts_queues sh); try done.
    cbn [with_web_queue web_queue].
    destruct (web_queue sh); cbn in Hw |- *; lia.
  - intros [= <-]. exact Hacc.
Qed.

Lemma game_accounts_init : game_accounts (Shared_init, Controller_init).
Proof.
  unfold game_accounts. cbn. repeat split; try done;
    unfold button_queue_maxsize, web_queue_maxsize; lia.
Qed.

Lemma game_reachable_accounts s : game_reachable s -> game_accounts s.
Proof.
  induction 1 as [|s a s' Hreach IH Hstep]; [apply game_accounts_init|].
  eapply game_accounts_step; [by apply game_reachable_inv | exact IH | done].
Qed.
End Accounts.

Section ReachableFacts.
Implicit Types (sh : Shared) (c : Controller) (g : GameLogic).

Lemma game_exec_reachable schedule : ∀ s s',
  game_reachable s -> game_exec schedule s = Some s' -> game_reachable s'.
Proof.
  induction schedule as [|a rest IH]; intros s s' Hr Hex; cbn [game_exec] in Hex.
  - by injection Hex as <-.
  - destruct (game_step a s) as [s1|] eqn:Hs; [|done].
    eapply IH; [|exact Hex]. by eapply game_reachable_step.
Qed.

(** The state of the scenario after the first level is won and replayed. *)
Lemma scenario_reachable :
  ∃ s', game_exec (take 6 scenario_schedule) (Shared_init, Controller_init)
        = Some s'
        /\ game_reachable s'
        /\ state (game_logic (snd s')) = PLAYING.
Proof.
  destruct (game_exec (take 6 scenario_schedule)
              (Shared_init, Controller_init)) as [s'|] eqn:Hex.
  - exists s'. split; [done|]. split.
    + eapply game_exec_reachable; [apply game_reachable_init | exact Hex].
    + vm_compute in Hex. by injection Hex as <-.
  - vm_compute in Hex. discriminate Hex.
Defined.

Lemma prefix_snoc_lookup (p s : list Z) (b : Z) :
  p `prefix_of` s -> s !! length p = Some b -> (p ++ [b]) `prefix_of` s.
Proof.
  intros [k ->] Hb. rewrite lookup_app_r, Nat.sub_diag in Hb by lia.
  destruct k as [|x k]; [done|]. injection Hb as ->.
  exists k. by rewrite <- app_assoc.
Qed.

(** The player's input is always a prefix of the sequence. *)
Lemma input_prefix_on_button entropy b sh c :
  game_inv (sh, c) ->
  player_input (game_logic c) `prefix_of` sequence (game_logic c) ->
  player_input (game_logic (snd (on_button entropy b sh c)))
    `prefix_of` sequence (game_logic (snd (on_button entropy b sh c))).
Proof.
  intros [_ Hst] Hpre. cbn [snd] in Hst.
  destruct (state (game_logic c)) eqn:Hphase; try done.
  - rewrite on_button_waiting by done. apply prefix_nil.
  - by rewrite on_button_ignored by congruence.
  - destruct Hst as [Hlt _].
    destruct (lookup_lt_is_Some_2 _ _ Hlt) as [y Hy].
    pose proof (check_input_some _ b y Hy) as Hchk.
    destruct (Z.eqb_spec b y) as [->|Hne]; cbn [negb] in Hchk.
    + destruct (S (length (player_input (game_logic c)))
                =? length (sequence (game_logic c)))%nat.
      * rewrite (on_button_win_level _ _ _ _ _ Hphase Hchk). apply prefix_nil.
      * rewrite (on_button_correct _ _ _ _ _ Hphase Hchk). cbn.
        by apply prefix_snoc_lookup.
    + rewrite (on_button_game_over _ _ _ _ _ Hphase Hchk). apply prefix_nil.
Qed.

Lemma game_reachable_input_prefix s :
  game_reachable s ->
  player_input (game_logic (snd s)) `prefix_of` sequence (game_logic (snd s)).
Proof.
  induction 1 as [|[sh c] a s' Hreach IH Hstep]; [apply prefix_nil|].
  pose proof (game_reachable_inv _ Hreach) as Hinv. cbn [snd] in IH.
  destruct a as [entropy| |d| |]; cbn [game_step] in Hstep.
  - destruct (running c); [|done]. injection Hstep as <-.
    unfold run_step. destruct (stop_event sh); [exact IH|].
    unfold run_body. destruct (button_queue sh) as [|d q]; cbn [get].
    + exact IH.
    + pose proof (input_prefix_on_button entropy (button d)
                    (with_button_queue q sh) c Hinv IH) as H.
      by destruct (on_button _ _ _ _).
  - destruct (running c && bool_decide (0 < presenters c)); [|done].
    injection Hstep as <-. exact IH.
  - injection Hstep as <-. exact IH.
  - injection Hstep as <-. exact IH.
  - injection Hstep as <-. exact IH.
Qed.
End ReachableFacts.

(** X7. In every reachable state of the game worker the score is 0 while
    the game waits and otherwise ten points for each level completed in the
    round, as stored in a C int. *)
Theorem score_follows_level (s : Shared * Controller) :
  game_reachable s ->
  (state (game_logic (snd s)) = WAITING -> score (fst s) = 0%Z)
  /\ (state (game_logic (snd s)) ≠ WAITING ->
      score (fst s) = c_int (10 * (level (game_logic (snd s)) - 1))).
Proof.
  intros Hr. destruct (game_reachable_accounts s Hr) as (Hsc & _).
  unfold round_score in Hsc.
  split; intros Hst; destruct (state (game_logic (snd s))); done.
Qed.

Lemma score_follows_level_witness :
  ∃ s', game_exec (take 6 scenario_schedule) (Shared_init, Controller_init)
        = Some s'
        /\ score (fst s') = c_int (10 * (level (game_logic (snd s')) - 1)).
Proof.
  destruct scenario_reachable as (s' & Hex & Hr & Hst).
  exists s'. split; [exact Hex|].
  apply (score_follows_level s' Hr). rewrite Hst. discriminate.
Defined.

(** X8. In every reachable state [game_active] is set exactly when the game
    is not waiting. *)
Theorem game_active_iff_in_round (s : Shared * Controller) :
  game_reachable s ->
  game_active (fst s) = true <-> state (game_logic (snd s)) ≠ WAITING.
Proof.
  intros Hr. destruct (game_reachable_accounts s Hr) as (_ & Hact & _).
  rewrite Hact. apply bool_decide_eq_true.
Qed.

Lemma game_active_iff_in_round_witness :
  ∃ s', game_exec (take 6 scenario_schedule) (Shared_init, Controller_init)
        = Some s'
        /\ game_active (fst s') = true.
Proof.
  destruct scenario_reachable as (s' & Hex & Hr & Hst).
  exists s'. split; [exact Hex|].
  apply (game_active_iff_in_round s' Hr). rewrite Hst. discriminate.
Defined.

(** X9. Neither queue ever holds more than its capacity: at most 50 presses
    and at most 100 snapshots, whatever the other processes publish. *)
Theorem queues_stay_bounded (s : Shared * Controller) :
  game_reachable s ->
  length (button_queue (fst s)) <= 50
  /\ length (web_queue (fst s)) <= 100.
Proof.
  intros Hr. by destruct (game_reachable_accounts s Hr) as (_ & _ & Hb & Hw & _).
Qed.

Lemma queues_stay_bounded_witness :
  ∃ s', game_exec (take 6 scenario_schedule) (Shared_init, Controller_init)
        = Some s'
        /\ length (button_queue (fst s')) <= 50
        /\ length (web_queue (fst s')) <= 100.
Proof.
  destruct scenario_reachable as (s' & Hex & Hr & Hst).
  exists s'. split; [exact Hex|]. exact (queues_stay_bounded s' Hr).
Defined.

(** X10. In every reachable state the high score is the highest score handed
    to [save_game_result] so far, or 0 when that is higher (or nothing was
    stored): it is never negative and no stored score exceeds it. *)
Theorem high_score_is_best_stored (s : Shared * Controller) :
  game_reachable s ->
  high_score (fst s) = best_stored (db (snd s))
  /\ (0 <= high_score (fst s))%Z
  /\ (∀ sc lv, (sc, lv) ∈ db (snd s) -> (sc <= high_score (fst s))%Z).
Proof.
  intros Hr. destruct (game_reachable_accounts s Hr) as (_ & _ & _ & _ & Hhs & _).
  split; [exact Hhs|]. rewrite Hhs. split; [apply best_stored_nonneg|].
  generalize (db (snd s)). intros rows sc lv Hin.
  induction rows as [|[sc' lv'] rows IH]; [by apply elem_of_nil in Hin|].
  unfold best_stored in *. cbn [map foldr fst].
  apply elem_of_cons in Hin as [[= <- <-] | Hin]; [lia|].
  specialize (IH Hin). lia.
Qed.

(** X11. Every row handed to [save_game_result] carries a level of at least
    1 and the score that goes with that level: ten points for each level
    completed, as stored in a C int. *)
Theorem stored_results_consistent (s : Shared * Controller) :
  game_reachable s ->
  ∀ sc lv, (sc, lv) ∈ db (snd s) ->
    (1 <= lv)%Z /\ sc = c_int (10 * (lv - 1)).
Proof.
  intros Hr sc lv Hin.
  destruct (game_reachable_accounts s Hr) as (_ & _ & _ & _ & _ & _ & Hdb).
  rewrite Forall_forall in Hdb. by destruct (Hdb _ Hin).
Qed.

(** The state at the end of the scenario, after the lost round. *)
Lemma scenario_end_reachable :
  ∃ s', game_exec scenario_schedule (Shared_init, Controller_init) = Some s'
        /\ game_reachable s'
        /\ db (snd s') = [(10%Z, 2%Z)].
Proof.
  destruct (game_exec scenario_schedule (Shared_init, Controller_init))
    as [s'|] eqn:Hex.
  - exists s'. split; [done|]. split.
    + eapply game_exec_reachable; [apply game_reachable_init | exact Hex].
    + vm_compute in Hex. by injection Hex as <-.
  - vm_compute in Hex. discriminate Hex.
Defined.

Lemma high_score_is_best_stored_witness :
  ∃ s', game_exec scenario_schedule (Shared_init, Controller_init) = Some s'
        /\ high_score (fst s') = best_stored (db (snd s'))
        /\ (0 <= high_score (fst s'))%Z.
Proof.
  destruct scenario_end_reachable as (s' & Hex & Hr & Hdb).
  exists s'. split; [exact Hex|].
  destruct (high_score_is_best_stored s' Hr) as (H1 & H2 & _). by split.
Defined.

Lemma stored_results_consistent_witness :
  ∃ s', game_exec scenario_schedule (Shared_init, Controller_init) = Some s'
        /\ (1 <= 2)%Z /\ 10%Z = c_int (10 * (2 - 1)).
Proof.
  destruct scenario_end_reachable as (s' & Hex & Hr & Hdb).
  exists s'. split; [exact Hex|].
  apply (stored_results_consistent s' Hr 10%Z 2%Z).
  rewrite Hdb. constructor.
Defined.

(** X12. In every reachable state the player's input is a prefix of the
    sequence, and in phase PLAYING a proper one: the next press always has a
    sequence entry to be compared with. *)
Theorem playing_input_is_proper_prefix (s : Shared * Controller) :
  game_reachable s ->
  player_input (game_logic (snd s)) `prefix_of` sequence (game_logic (snd s))
  /\ (state (game_logic (snd s)) = PLAYING ->
      player_input (game_logic (snd s)) ≠ sequence (game_logic (snd s))
      /\ is_Some (sequence (game_logic (snd s))
                  !! length (player_input (game_logic (snd s))))).
Proof.
  intros Hr. split; [by apply game_reachable_input_prefix|].
  intros Hst. destruct (game_reachable_inv s Hr) as [_ Hinv].
  rewrite Hst in Hinv. destruct Hinv as [Hlt _].
  split; [|by apply lookup_lt_is_Some_2].
  intros Heq. rewrite Heq in Hlt. lia.
Qed.

Lemma playing_input_is_proper_prefix_witness :
  ∃ s', game_exec (take 6 scenario_schedule) (Shared_init, Controller_init)
        = Some s'
        /\ player_input (game_logic (snd s')) ≠ sequence (game_logic (snd s')).
Proof.
  destruct scenario_reachable as (s' & Hex & Hr & Hst).
  exists s'. split; [exact Hex|].
  by destruct (playing_input_is_proper_prefix s' Hr) as [_ [H _]].
Defined.

(** X13. Between two transitions the game is never seen in WIN or LOSE (the
    turn that enters them leaves them); every entry of the sequence is 0, 1
    or 2; while waiting the sequence and the input are empty; and a playback
    thread exists exactly while the phase is SHOWING, never more than one. *)
Theorem reachable_game_shape (s : Shared * Controller) :
  game_reachable s ->
  let g := game_logic (snd s) in
  state g ∈ [WAITING; SHOWING; PLAYING]
  /\ Forall (fun x => x ∈ [0%Z; 1%Z; 2%Z]) (sequence g)
  /\ level g = Z.of_nat (length (sequence g))
  /\ (state g = WAITING -> sequence g = [] /\ player_input g = [])
  /\ (state g ≠ WAITING -> sequence g ≠ [])
  /\ (state g = SHOWING -> player_input g = [])
  /\ presenters (snd s) = (if decide (state g = SHOWING) then 1 else 0).
Proof.
  intros Hr g. subst g.
  destruct (game_reachable_inv s Hr) as [Hlvl Hst].
  destruct (game_reachable_accounts s Hr) as (_ & _ & _ & _ & _ & Hseq & _).
  split; [|split; [exact Hseq|split; [exact Hlvl|]]];
    destruct (state (game_logic (snd s))); try done;
    try (repeat constructor; fail).
  - destruct Hst as (H1 & H2 & H3). repeat split; try done.
  - destruct Hst as (H1 & H2 & H3). repeat split; try done.
  - destruct Hst as (H1 & H3). repeat split; try done.
    intros _ Heq. rewrite Heq in H1. cbn in H1. lia.
Qed.

Lemma reachable_game_shape_witness :
  ∃ s', game_exec (take 6 scenario_schedule) (Shared_init, Controller_init)
        = Some s'
        /\ Forall (fun x => x ∈ [0%Z; 1%Z; 2%Z])
                  (sequence (game_logic (snd s'))).
Proof.
  destruct scenario_reachable as (s' & Hex & Hr & Hst).
  exists s'. split; [exact Hex|].
  by destruct (reachable_game_shape s' Hr) as (_ & H & _).
Defined.

(** ** What one turn of the driving loop does to the queues *)

Section TurnFacts.
Implicit Types (sh : Shared) (c : Controller).

(** The handling of a press touches neither queue nor the stop signal. *)
Lemma on_button_queues entropy b sh c :
  button_queue (fst (on_button entropy b sh c)) = button_queue sh
  /\ web_queue (fst (on_button entropy b sh c)) = web_queue sh
  /\ stop_event (fst (on_button entropy b sh c)) = stop_event sh.
Proof.
  unfold on_button.
  destruct (decide (state (game_logic c) = WAITING)); [done|].
  destruct (decide (state (game_logic c) = PLAYING)); [|done].
  destruct (check_input b (game_logic c)) as [g1 [[]|err]]; try done.
  by destruct (score sh >? high_score sh)%Z.
Qed.

Lemma run_body_queues entropy sh c :
  button_queue (fst (run_body entropy sh c)) = tail (button_queue sh)
  /\ web_queue (fst (run_body entropy sh c)) =
       fst (put web_queue_maxsize
              {| snap_state := state (game_logic (snd (run_body entropy sh c)));
                 snap_level := level (game_logic (snd (run_body entropy sh c)));
                 snap_score := score (fst (run_body entropy sh c));
                 snap_high_score := high_score (fst (run_body entropy sh c)) |}
              (web_queue sh)).
Proof.
  destruct (button_queue sh) as [|d q] eqn:Hq.
  - by rewrite run_body_empty.
  - rewrite (run_body_press _ _ _ _ _ Hq). cbv zeta.
    destruct (on_button_queues entropy (button d) (with_button_queue q sh) c)
      as (Hb & Hw & _).
    destruct (on_button _ _ _ _) as [sh1 c1]. cbn [fst snd] in *.
    split; [exact Hb|]. cbn [publish_state with_web_queue web_queue score
      high_score]. by rewrite Hw.
Qed.
End TurnFacts.

(** X14. A turn of the driving loop takes exactly the oldest press from the
    button queue, in whatever phase the game is (a press taken while the
    sequence is shown is lost), and leaves the others in order; a turn that
    finds the stop signal set takes none. *)
Theorem one_press_per_turn (entropy : Z) (sh : Shared) (c : Controller) :
  button_queue (fst (run_step entropy sh c)) =
    if stop_event sh then button_queue sh else tail (button_queue sh).
Proof.
  unfold run_step. destruct (stop_event sh); [done|].
  by destruct (run_body_queues entropy sh c).
Qed.

(** X15. Every turn of the driving loop that runs its body publishes one
    snapshot of the state as the turn leaves it (phase, level, score, high
    score), appended to the web queue when it holds fewer than 100 entries
    and dropped otherwise. *)
Theorem turn_publishes_snapshot (entropy : Z) (sh : Shared) (c : Controller) :
  stop_event sh = false ->
  let s' := run_step entropy sh c in
  let snap := {| snap_state := state (game_logic (snd s'));
                 snap_level := level (game_logic (snd s'));
                 snap_score := score (fst s');
                 snap_high_score := high_score (fst s') |} in
  web_queue (fst s') =
    if decide (length (web_queue sh) < 100)
    then web_queue sh ++ [snap] else web_queue sh.
Proof.
  intros Hstop s' snap. subst s' snap. unfold run_step. rewrite Hstop.
  destruct (run_body_queues entropy sh c) as [_ ->].
  unfold put, web_queue_maxsize. by case_decide.
Qed.

Lemma turn_publishes_snapshot_witness :
  web_queue (fst (run_step 1
     (with_button_queue [ {| button := 0; timestamp := "t" |} ] Shared_init)
     Controller_init))
  = [ {| snap_state := SHOWING; snap_level := 1; snap_score := 0;
         snap_high_score := 0 |} ].
Proof.
  rewrite (turn_publishes_snapshot 1
             (with_button_queue [ {| button := 0; timestamp := "t" |} ]
                                Shared_init) Controller_init);
    reflexivity.
Defined.

(** ** The input worker *)

Section InputFacts.
Implicit Types (sh : Shared) (ih : InputHandler) (bm : ButtonMonitor).

(** A turn of a polling loop leaves the monitor alone or records one press
    of its own button. *)
Lemma turn_of_effect rpi b smp bm ls bm' ls' :
  turn_of rpi b smp (bm, ls) = Return (bm', ls') ->
  bm' = bm \/ bm' = with_press b (now smp) bm.
Proof.
  unfold turn_of, poll_high, poll_low, register_press.
  destruct (decide (b = 2%Z)), rpi; try (intros [= <- <-]; by left);
    (destruct (_ && _); [|intros [= <- <-]; by left]);
    (destruct (last_press_times bm !! b); [|done]);
    (destruct (PrimFloat.ltb _ _); intros [= <- <-]; [by right | by left]).
Qed.

Lemma polling_effect rpi b samples : ∀ bm ls,
  ∃ n, n <= length samples
    /\ button_presses (fst (polling (turn_of rpi b) samples (bm, ls)))
       = button_presses bm ++ replicate n b
    /\ debounce_delay (fst (polling (turn_of rpi b) samples (bm, ls)))
       = debounce_delay bm
    /\ ∀ k, k ≠ b ->
         last_press_times (fst (polling (turn_of rpi b) samples (bm, ls))) !! k
         = last_press_times bm !! k.
Proof.
  induction samples as [|smp rest IH]; intros bm ls.
  { exists 0. cbn. by rewrite app_nil_r. }
  cbn [polling].
  destruct (turn_of rpi b smp (bm, ls)) as [[bm' ls']|e] eqn:Hturn.
  2: { exists 0. cbn. rewrite app_nil_r. repeat split; [lia|done..]. }
  destruct (IH bm' ls') as (n & Hn & Hp & Hd & Ht).
  destruct (turn_of_effect _ _ _ _ _ _ _ Hturn) as [-> | ->].
  - exists n. cbn [length]. repeat split; [lia|done..].
  - exists (S n). cbn [length]. rewrite Hp, Hd. cbn [with_press
      button_presses debounce_delay replicate].
    rewrite <- app_assoc. repeat split; [lia|done..|].
    intros k Hk. rewrite Ht by done. cbn. by rewrite lookup_insert_ne.
Qed.

Lemma turn_of_simulation b smp st : turn_of false b smp st = Return st.
Proof.
  unfold turn_of. destruct st as [bm ls]. by destruct (decide (b = 2%Z)).
Qed.

Lemma polling_simulation b samples : ∀ st,
  polling (turn_of false b) samples st = st.
Proof.
  induction samples as [|smp rest IH]; intros st; [done|].
  cbn [polling]. rewrite turn_of_simulation. apply IH.
Qed.

Lemma edge_times_held pol samples : ∀ l0,
  is_active pol l0 = true ->
  Forall (fun smp => is_active pol (pin_level smp) = true) samples ->
  edge_times pol l0 samples = [].
Proof.
  induction samples as [|smp rest IH]; intros l0 Hl0 Hall; [done|].
  apply Forall_cons in Hall as [Hsmp Hrest].
  cbn [edge_times]. rewrite Hl0, andb_false_r. cbn [app]. by apply IH.
Qed.

Lemma idle_level_inactive pol : is_active pol (idle_level pol) = false.
Proof. by destruct pol. Qed.
End InputFacts.

(** X16. A polling loop touches only what belongs to its own button: it
    appends presses of that button alone, at most one for each sample read,
    and leaves the debounce delay and the stored press times of the other
    buttons as they were.  This holds with or without the GPIO library and
    for any index. *)
Theorem monitor_button_own_button
    (RASPBERRY_PI : bool) (button_index : Z) (samples : list Sample)
    (bm : ButtonMonitor) :
  ∃ n, n <= length samples
    /\ button_presses (monitor_button RASPBERRY_PI button_index samples bm)
       = button_presses bm ++ replicate n button_index
    /\ debounce_delay (monitor_button RASPBERRY_PI button_index samples bm)
       = debounce_delay bm
    /\ ∀ k, k ≠ button_index ->
         last_press_times
           (monitor_button RASPBERRY_PI button_index samples bm) !! k
         = last_press_times bm !! k.
Proof.
  unfold monitor_button. destruct (BUTTON_PINS !! button_index).
  - apply polling_effect.
  - exists 0. cbn. rewrite app_nil_r. repeat split; [lia|done..].
Qed.

(** X17. Nothing is ever recorded for an index that is not a key of
    [BUTTON_PINS] (the thread ends on the [KeyError]) nor when the GPIO
    library is missing (the loop only sleeps): the monitor stays as it
    was. *)
Theorem monitor_button_inert
    (RASPBERRY_PI : bool) (button_index : Z) (samples : list Sample)
    (bm : ButtonMonitor) :
  RASPBERRY_PI = false \/ button_index ∉ [0%Z; 1%Z; 2%Z] ->
  monitor_button RASPBERRY_PI button_index samples bm = bm.
Proof.
  intros Hcase. unfold monitor_button.
  destruct (BUTTON_PINS !! button_index) as [pin|] eqn:Hpin; [|done].
  destruct Hcase as [-> | Hbad].
  - by rewrite polling_simulation.
  - exfalso. apply Hbad. unfold BUTTON_PINS in Hpin.
    repeat (apply lookup_insert_Some in Hpin as [[<- _] | [_ Hpin]];
            [repeat constructor|]).
    apply lookup_singleton_Some in Hpin as [<- _]. repeat constructor.
Qed.

Lemma monitor_button_inert_witness :
  monitor_button true 5
    [ {| now := 1000; pin_level := true |} ] ButtonMonitor_init
  = ButtonMonitor_init.
Proof.
  apply (monitor_button_inert true 5). right.
  intros Hin. apply list_elem_of_In in Hin. simpl in Hin.
  destruct Hin as [? | [? | [? | []]]]; discriminate.
Defined.

(** X18. A button held down, however long, gives exactly one press: on the
    hardware, over a trace that starts at the active level and stays there
    (clock readings later than the debounce interval after the initial stored
    time 0), the loop records one press of its button and no more. *)
Theorem held_button_one_press
    (button_index : Z) (bm : ButtonMonitor) (smp : Sample)
    (rest : list Sample) :
  button_index ∈ [0%Z; 1%Z; 2%Z] ->
  last_press_times bm !! button_index = Some 0%float ->
  Forall (fun s =>
            PrimFloat.ltb (debounce_delay bm) (PrimFloat.sub (now s) 0) = true)
         (smp :: rest) ->
  Forall (fun s => is_active (polarity_of button_index) (pin_level s) = true)
         (smp :: rest) ->
  button_presses (monitor_button true button_index (smp :: rest) bm)
  = button_presses bm ++ [button_index].
Proof.
  intros Hvalid HT Hclock Hheld.
  rewrite (monitor_button_polling button_index Hvalid).
  rewrite (polling_presses button_index (smp :: rest) bm _ 0%float None HT).
  2: { right. split; [done | exact Hclock]. }
  apply Forall_cons in Hheld as [Hsmp Hrest].
  cbn [edge_times]. rewrite Hsmp, idle_level_inactive. cbn [negb andb app].
  by rewrite (edge_times_held _ rest _ Hsmp Hrest).
Qed.

Lemma held_button_one_press_witness :
  button_presses
    (monitor_button true 1
       [ {| now := 1000; pin_level := false |};
         {| now := 1010; pin_level := false |};
         {| now := 1500; pin_level := false |} ]
       ButtonMonitor_init)
  = [1%Z].
Proof.
  apply (held_button_one_press 1 ButtonMonitor_init
           {| now := 1000; pin_level := false |}
           [ {| now := 1010; pin_level := false |};
             {| now := 1500; pin_level := false |} ]).
  - repeat constructor.
  - reflexivity.
  - repeat (constructor; [reflexivity|]). constructor.
  - repeat constructor.
Defined.

Section ForwardingFacts.
Implicit Types (sh : Shared) (ih : InputHandler).

Lemma forward_step_empty stamp sh ih :
  stop_event sh = false -> button_presses (button_monitor ih) = [] ->
  forward_step stamp sh ih = (sh, ih).
Proof.
  intros Hstop He. unfold forward_step, forward_body, get_button_press.
  by rewrite Hstop, He.
Qed.

Lemma forward_step_room stamp sh ih b rest :
  stop_event sh = false ->
  button_presses (button_monitor ih) = b :: rest ->
  length (button_queue sh) < button_queue_maxsize ->
  forward_step stamp sh ih =
    (with_button_queue
       (button_queue sh ++ [ {| button := b; timestamp := stamp |} ]) sh,
     {| button_monitor :=
          {| last_press_times := last_press_times (button_monitor ih);
             debounce_delay := debounce_delay (button_monitor ih);
             button_presses := rest |};
        last_state := last_state ih; forwarding := forwarding ih |}).
Proof.
  intros Hstop Hb Hroom. unfold forward_step, forward_body, get_button_press.
  by rewrite Hstop, Hb, put_room.
Qed.
End ForwardingFacts.

(** X19. Presses reach the queue in the order they were detected.  While
    the stop signal is not set and the queue has room for them, one turn of
    the forwarding loop per recorded press moves every press of the monitor
    to the end of the button queue, oldest first, each with the time stamp of
    its turn, and leaves the monitor's list empty.  A turn that finds the
    list empty changes nothing. *)
Theorem presses_forwarded_in_order (RASPBERRY_PI : bool) (stamps : list string) :
  ∀ (sh : Shared) (ih : InputHandler),
  stop_event sh = false ->
  forwarding ih = true ->
  length stamps = length (button_presses (button_monitor ih)) ->
  length (button_queue sh) + length stamps <= 50 ->
  input_exec RASPBERRY_PI (map Forward stamps) (sh, ih) =
    Some (with_button_queue
            (button_queue sh
             ++ zip_with mkButtonData (button_presses (button_monitor ih))
                         stamps) sh,
          {| button_monitor :=
               {| last_press_times := last_press_times (button_monitor ih);
                  debounce_delay := debounce_delay (button_monitor ih);
                  button_presses := [] |};
             last_state := last_state ih; forwarding := true |})
  /\ (∀ stamp, button_presses (button_monitor ih) = [] ->
        forward_step stamp sh ih = (sh, ih)).
Proof.
  induction stamps as [|stamp stamps IH]; intros sh ih Hstop Hfw Hlen Hroom.
  - split; [|intros stamp He; by apply forward_step_empty].
    destruct ih as [[times d presses] ls fw]. cbn in *.
    destruct presses; [|discriminate]. subst fw.
    by rewrite app_nil_r, with_button_queue_same.
  - split; [|intros st He; by apply forward_step_empty].
    destruct (button_presses (button_monitor ih)) as [|b rest] eqn:Hb;
      [discriminate|].
    cbn [map input_exec input_step]. rewrite Hfw.
    rewrite (forward_step_room stamp sh ih b rest Hstop Hb)
      by (unfold button_queue_maxsize; cbn [length] in Hroom; lia).
    match goal with
    | |- input_exec _ _ (?sh1, ?ih1) = _ =>
        destruct (IH sh1 ih1) as [Hex _]
    end.
    + exact Hstop.
    + exact Hfw.
    + cbn in Hlen |- *. lia.
    + cbn [with_button_queue button_queue]. rewrite length_app.
      cbn [length] in Hroom |- *. lia.
    + rewrite Hex. cbn. by rewrite <- app_assoc.
Qed.

Lemma presses_forwarded_in_order_witness :
  let ih := {| button_monitor :=
                 {| last_press_times := last_press_times ButtonMonitor_init;
                    debounce_delay := debounce_delay ButtonMonitor_init;
                    button_presses := [2%Z; 0%Z] |};
               last_state := last_state InputHandler_init;
               forwarding := true |} in
  option_map (fun s => button_queue (fst s))
    (input_exec true (map Forward ["a"; "b"]) (Shared_init, ih))
  = Some [ {| button := 2; timestamp := "a" |};
           {| button := 0; timestamp := "b" |} ].
Proof.
  intros ih.
  destruct (presses_forwarded_in_order true ["a"; "b"] Shared_init ih)
    as [Hex _]; [reflexivity | reflexivity | reflexivity | simpl; lia |].
  rewrite Hex. reflexivity.
Defined.

Section ValidityFacts.
Implicit Types (sh : Shared) (ih : InputHandler).

Lemma BUTTON_PINS_keys_valid b pin :
  BUTTON_PINS !! b = Some pin -> b ∈ [0%Z; 1%Z; 2%Z].
Proof.
  unfold BUTTON_PINS. intros Hpin.
  repeat (apply lookup_insert_Some in Hpin as [[<- _] | [_ Hpin]];
          [repeat constructor|]).
  apply lookup_singleton_Some in Hpin as [<- _]. repeat constructor.
Qed.

Lemma put_valid {A : Type} (P : A -> Prop) maxsize x (q : list A) :
  P x -> Forall P q -> Forall P (fst (put maxsize x q)).
Proof.
  intros Hx Hq. unfold put. case_decide; cbn [fst]; [|done].
  apply Forall_app. split; [done|]. by apply Forall_singleton.
Qed.

Lemma tail_valid {A : Type} (P : A -> Prop) (q : list A) :
  Forall P q -> Forall P (fst (get q)).
Proof. intros Hq. destruct q; [done|]. by apply Forall_cons in Hq as [_ ?]. Qed.
End ValidityFacts.

(** X20. Only the button indices 0, 1 and 2 ever enter the button queue.
    Every transition of the input worker keeps the monitor's list and the
    queue free of any other index, and so do the two web routes, whatever
    index [press_button] is called with. *)
Theorem only_valid_buttons_published :
  (∀ RASPBERRY_PI a s s',
     input_step RASPBERRY_PI a s = Some s' ->
     presses_valid s -> presses_valid s')
  /\ (∀ b stamp sh,
        Forall (fun d => button d ∈ [0%Z; 1%Z; 2%Z]) (button_queue sh) ->
        Forall (fun d => button d ∈ [0%Z; 1%Z; 2%Z])
               (button_queue (fst (press_button b stamp sh))))
  /\ (∀ stamp sh,
        Forall (fun d => button d ∈ [0%Z; 1%Z; 2%Z]) (button_queue sh) ->
        Forall (fun d => button d ∈ [0%Z; 1%Z; 2%Z])
               (button_queue (fst (start_game stamp sh)))).
Proof.
  split; [|split].
  - intros rpi a [sh ih] s' Hstep [Hp Hq]. cbn [fst snd] in Hp, Hq.
    destruct a as [b smp|stamp| |]; cbn [input_step] in Hstep.
    + destruct (forwarding ih); [|done].
      unfold poll_step in Hstep.
      destruct (BUTTON_PINS !! b) as [pin|] eqn:Hpin; [|done].
      destruct (last_state ih !! b) as [ls|]; [|done].
      destruct (turn_of rpi b smp (button_monitor ih, ls))
        as [[bm' ls']|e] eqn:Hturn; [|done].
      injection Hstep as <-. split; [|exact Hq]. cbn [snd button_monitor].
      destruct (turn_of_effect _ _ _ _ _ _ _ Hturn) as [-> | ->]; [done|].
      cbn. apply Forall_app. split; [done|]. apply Forall_singleton.
      by eapply BUTTON_PINS_keys_valid.
    + destruct (forwarding ih); [|done]. injection Hstep as <-.
      unfold forward_step. destruct (stop_event sh); [by split|].
      unfold forward_body, get_button_press.
      destruct (button_presses (button_monitor ih)) as [|b rest] eqn:Hb;
        [by split; cbn; rewrite ?Hb|].
      apply Forall_cons in Hp as [Hb0 Hrest].
      split; [exact Hrest|]. cbn. by apply put_valid.
    + injection Hstep as <-. split; [exact Hp|]. cbn. by apply tail_valid.
    + injection Hstep as <-. by split.
  - intros b stamp sh Hq. unfold press_button.
    case_bool_decide as Hb; cbn [negb]; [|done].
    destruct (put button_queue_maxsize _ (button_queue sh))
      as [q [u|e]] eqn:Hput; [|done].
    cbn. replace q with (fst (put button_queue_maxsize
      {| button := b; timestamp := stamp |} (button_queue sh)))
      by by rewrite Hput.
    by apply put_valid.
  - intros stamp sh Hq. unfold start_game.
    destruct (put button_queue_maxsize _ (button_queue sh))
      as [q [u|e]] eqn:Hput; [|done].
    cbn. replace q with (fst (put button_queue_maxsize
      {| button := 0%Z; timestamp := stamp |} (button_queue sh)))
      by by rewrite Hput.
    apply put_valid; [repeat constructor | done].
Qed.

Lemma only_valid_buttons_published_witness :
  Forall (fun d => button d ∈ [0%Z; 1%Z; 2%Z])
         (button_queue (fst (press_button 9 "t" Shared_init)))
  /\ Forall (fun d => button d ∈ [0%Z; 1%Z; 2%Z])
            (button_queue (fst (press_button 2 "t" Shared_init))).
Proof.
  destruct only_valid_buttons_published as (_ & Hweb & _).
  split; apply Hweb; constructor.
Defined.

(** ** The liveness monitor and the state worker of the web process *)

Section SupervisorFacts.
Implicit Types (sh : Shared).

Lemma check_alive_spec alive sh :
  check_alive alive sh =
    if existsb negb alive then with_stop_event true sh else sh.
Proof.
  induction alive as [|a rest IH]; [done|].
  cbn [check_alive existsb]. by destruct a.
Qed.

Lemma update_state_worker_drain (q : list Snapshot) : ∀ snap sh game_state,
  stop_event sh = false ->
  web_queue sh = q ++ [snap] ->
  update_state_worker (length (web_queue sh)) sh game_state =
    (with_web_queue [] sh,
     {| snap_state := snap_state snap; snap_level := snap_level snap;
        snap_score := score sh; snap_high_score := high_score sh |}).
Proof.
  induction q as [|x q IH]; intros snap sh game_state Hstop Hq.
  - rewrite Hq. cbn [app length update_state_worker]. rewrite Hstop.
    unfold update_state_body. by rewrite Hq.
  - rewrite Hq. cbn [app length update_state_worker]. rewrite Hstop.
    unfold update_state_body. rewrite Hq. cbn [app get].
    specialize (IH snap (with_web_queue (q ++ [snap]) sh)
                  {| snap_state := snap_state x; snap_level := snap_level x;
                     snap_score := score sh; snap_high_score := high_score sh |}
                  Hstop eq_refl).
    cbn [with_web_queue web_queue] in IH. rewrite IH. done.
Qed.
End SupervisorFacts.

(** X21. A turn of the liveness monitor raises the stop signal exactly when
    some process is reported dead, and changes nothing else; having raised
    it, the monitor leaves its loop at the next turn, whatever the processes
    report then. *)
Theorem monitor_stops_on_dead_process (alive : list bool) (sh : Shared) :
  stop_event sh = false ->
  monitor_step alive sh =
    (if existsb negb alive then with_stop_event true sh else sh, true)
  /\ (existsb negb alive = true ->
      ∀ alive', monitor_step alive' (fst (monitor_step alive sh))
                = (with_stop_event true sh, false)).
Proof.
  intros Hstop. unfold monitor_step at 1 3. rewrite Hstop, check_alive_spec.
  split; [done|]. intros Hdead alive'. by rewrite Hdead.
Qed.

Lemma monitor_stops_on_dead_process_witness :
  monitor_step [true; false; true] Shared_init
  = (with_stop_event true Shared_init, true).
Proof.
  destruct (monitor_stops_on_dead_process [true; false; true] Shared_init)
    as [H _]; [reflexivity|]. exact H.
Defined.

(** X22. Once the state worker of the web process has taken every snapshot
    waiting in the web queue, the dashboard state shows the phase and the
    level of the newest snapshot, but the score and the high score of the
    shared cells as they are then, not those of the snapshot; the queue is
    empty. *)
Theorem dashboard_after_drain
    (q : list Snapshot) (snap : Snapshot) (sh : Shared)
    (game_state : Snapshot) :
  stop_event sh = false ->
  web_queue sh = q ++ [snap] ->
  update_state_worker (length (web_queue sh)) sh game_state =
    (with_web_queue [] sh,
     {| snap_state := snap_state snap; snap_level := snap_level snap;
        snap_score := score sh; snap_high_score := high_score sh |}).
Proof. apply update_state_worker_drain. Qed.

Lemma dashboard_after_drain_witness :
  let old := {| snap_state := SHOWING; snap_level := 1; snap_score := 0;
                snap_high_score := 0 |} in
  let new := {| snap_state := PLAYING; snap_level := 1; snap_score := 0;
                snap_high_score := 0 |} in
  let sh := with_score 10 (with_web_queue [old; new] Shared_init) in
  snd (update_state_worker 2 sh game_state_init)
  = {| snap_state := PLAYING; snap_level := 1; snap_score := 10;
       snap_high_score := 0 |}.
Proof.
  intros old new sh.
  pose proof (dashboard_after_drain [old] new sh game_state_init) as H.
  change (length (web_queue sh)) with 2 in H.
  rewrite H; reflexivity.
Defined.

(** X23. A press taken while the game waits starts a game: the turn sets
    [game_active], replaces the sequence by one drawn entry (0, 1 or 2),
    sets level 1, an empty input and phase SHOWING, and starts one playback
    thread; the score, the high score and the stored results are untouched
    and nothing is flashed. *)
Theorem start_turn
    (entropy : Z) (sh : Shared) (c : Controller)
    (button_data : ButtonData) (q : list ButtonData) :
  stop_event sh = false ->
  button_queue sh = button_data :: q ->
  state (game_logic c) = WAITING ->
  let s' := run_step entropy sh c in
  game_active (fst s') = true
  /\ (∃ new_led, new_led ∈ [0%Z; 1%Z; 2%Z]
        /\ game_logic (snd s') =
             {| sequence := [new_led]; player_input := []; level := 1;
                state := SHOWING |})
  /\ presenters (snd s') = S (presenters c)
  /\ score (fst s') = score sh
  /\ high_score (fst s') = high_score sh
  /\ db (snd s') = db c
  /\ leds (snd s') = leds c.
Proof.
  intros Hstop Hq Hst s'. subst s'.
  rewrite (run_step_press _ _ _ _ _ Hstop Hq).
  rewrite on_button_waiting by done. cbv zeta.
  repeat split. exists (randint 0 2 entropy).
  split; [apply randint_0_2 | done].
Qed.

Lemma start_turn_witness :
  game_active
    (fst (run_step 1
            (with_button_queue [ {| button := 2; timestamp := "t" |} ]
                               Shared_init)
            Controller_init))
  = true.
Proof.
  apply (start_turn 1
           (with_button_queue [ {| button := 2; timestamp := "t" |} ]
                              Shared_init)
           Controller_init {| button := 2; timestamp := "t" |} []);
    reflexivity.
Defined.
